(** * bigcrush_wrapper: the stdin adapter of the TestU01 batteries

    A shallow embedding of [src/rng/bigcrush_wrapper.c].  The C program keeps
    a 4096-byte buffer over standard input, decodes it into little-endian
    32-bit draws, exposes the draws through the two TestU01 callbacks
    ([stdin_bits], [stdin_u01]) and, in [main], selects one battery from the
    command line.

    Conventions of the embedding:
    - [uint8_t] is [Byte.byte]; [uint32_t] and [size_t] are [Z] with the
      wrap-around written out ([uint32], [size_t]);
    - the process state (the three statics, the unread part of standard
      input, the text written to standard output and standard error) is the
      record [state]; a C function is a function [state -> outcome A];
    - [exit(n)] is the constructor [Exit], so a function that terminates the
      process never hands a value back to its caller;
    - [double] is IEEE binary64 as specified by [SpecFloat]. *)

From Stdlib Require Import ZArith List Bool Lia.
From Stdlib Require Import Strings.Ascii Strings.String Strings.Byte.
From Stdlib Require Import Floats.SpecFloat.
From Stdlib Require Import QArith.
From Stdlib Require Import Relations.Relation_Operators.
Import ListNotations.

Local Open Scope Z_scope.

(** ** Machine integers *)

(** [uint32_t] arithmetic is modulo 2^32. *)
Definition uint32 (z : Z) : Z := z mod 2 ^ 32.

(** [size_t] arithmetic is modulo 2^64 (LP64). *)
Definition size_t (z : Z) : Z := z mod 2 ^ 64.

(** The integer value of a [uint8_t]. *)
Definition byte_to_Z (b : byte) : Z := Z.of_N (Byte.to_N b).

(** ** Process state and termination *)

(** [#define BUFFER_SIZE 4096] *)
Definition BUFFER_SIZE : Z := 4096.

(** The statics of the translation unit and the three standard streams.
    [stdin] is the part of the input not yet handed to the program, cut into
    the pieces in which the operating system will deliver it: one [fread]
    obtains bytes from the first piece only (a short count), and obtains
    nothing once no piece is left (end of stream).  [stdin_reads] counts the
    [fread] calls issued so far.  [heap_exhausted] tells whether [malloc]
    returns [NULL]. *)
Record state : Type := mkState {
  buffer : list byte;
  buffer_pos : Z;
  buffer_len : Z;
  stdin : list (list byte);
  stdin_reads : nat;
  stdout : string;
  stderr : string;
  heap_exhausted : bool
}.

(** A call either returns to its caller or terminates the process. *)
Inductive outcome (A : Type) : Type :=
| Return (a : A) (st : state)
| Exit (status : Z) (st : state).
Arguments Return {A} a st.
Arguments Exit {A} status st.

Definition M (A : Type) : Type := state -> outcome A.

Definition ret {A} (a : A) : M A := fun st => Return a st.

Definition bind {A B} (m : M A) (k : A -> M B) : M B :=
  fun st =>
    match m st with
    | Return a st' => k a st'
    | Exit status st' => Exit status st'
    end.

Definition exit {A} (status : Z) : M A := fun st => Exit status st.

Notation "x <- m ;; k" := (bind m (fun x => k))
  (at level 61, m at next level, right associativity).
Notation "m ;;; k" := (bind m (fun _ => k))
  (at level 61, right associativity).

(** The line feed written by ["\n"] in a C format string. *)
Definition LF : string := String "010"%char EmptyString.

(** [printf] and [fprintf(stderr, ...)] with the format already expanded. *)
Definition print_out (s : string) : M unit :=
  fun st => Return tt
    (mkState (buffer st) (buffer_pos st) (buffer_len st) (stdin st)
       (stdin_reads st) (stdout st ++ s)%string (stderr st) (heap_exhausted st)).

Definition print_err (s : string) : M unit :=
  fun st => Return tt
    (mkState (buffer st) (buffer_pos st) (buffer_len st) (stdin st)
       (stdin_reads st) (stdout st) (stderr st ++ s)%string (heap_exhausted st)).

(** ** Stream reader *)

(** [fread(buffer, 1, n, stdin)]: the bytes obtained and the input left. *)
Definition fread (n : Z) (input : list (list byte))
  : list byte * list (list byte) :=
  match input with
  | [] => ([], [])
  | piece :: later =>
      let got := firstn (Z.to_nat n) piece in
      match skipn (Z.to_nat n) piece with
      | [] => (got, later)
      | rest => (got, rest :: later)
      end
  end.

(** [fread] stores the bytes obtained at the start of the array and leaves
    the remainder of the array as it was. *)
Definition store_prefix (got old : list byte) : list byte :=
  got ++ skipn (List.length got) old.

(** <<
    static int refill_buffer(void) {
        buffer_len = fread(buffer, 1, BUFFER_SIZE, stdin);
        buffer_pos = 0;
        return buffer_len > 0;
    }
    >> *)
Definition refill_buffer : M bool :=
  fun st =>
    let '(got, input') := fread BUFFER_SIZE (stdin st) in
    let len := Z.of_nat (List.length got) in
    Return (0 <? len)
      (mkState (store_prefix got (buffer st)) 0 len input'
         (S (stdin_reads st)) (stdout st) (stderr st) (heap_exhausted st)).

(** [buffer[buffer_pos++]]: the byte under the cursor, the cursor advanced. *)
Definition take_byte : M byte :=
  fun st =>
    Return (nth (Z.to_nat (buffer_pos st)) (buffer st) x00)
      (mkState (buffer st) (size_t (buffer_pos st + 1)) (buffer_len st)
         (stdin st) (stdin_reads st) (stdout st) (stderr st)
         (heap_exhausted st)).

(** The body of the [for] loop of [read_uint32], at index [i] with the
    accumulator [value]:
    <<
        if (buffer_pos >= buffer_len) {
            if (!refill_buffer()) {
                fprintf(stderr, "Error: stdin exhausted\n");
                exit(1);
            }
        }
        value |= ((uint32_t)buffer[buffer_pos++]) << (i * 8);
    >> *)
Definition read_uint32_body (i : Z) (value : Z) : M Z :=
  fun st =>
    ((if buffer_pos st >=? buffer_len st
      then (filled <- refill_buffer ;;
            if negb filled
            then print_err ("Error: stdin exhausted" ++ LF)%string ;;; exit 1
            else ret tt)
      else ret tt) ;;;
     b <- take_byte ;;
     ret (Z.lor value (uint32 (Z.shiftl (byte_to_Z b) (i * 8))))) st.

(** [for (int i = 0; i < 4; i++) body], with [remaining] iterations to go. *)
Fixpoint read_uint32_loop (remaining : nat) (i : Z) (value : Z) : M Z :=
  match remaining with
  | O => ret value
  | S remaining' =>
      value' <- read_uint32_body i value ;;
      read_uint32_loop remaining' (i + 1) value'
  end.

(** <<
    static uint32_t read_uint32(void) {
        uint32_t value = 0;
        for (int i = 0; i < 4; i++) { ... }
        return value;
    }
    >> *)
Definition read_uint32 : M Z := read_uint32_loop 4 0 0.

(** The state at process start: the array zeroed, [buffer_pos = BUFFER_SIZE],
    [buffer_len = 0], nothing printed, [input] waiting on standard input. *)
Definition initial_state (input : list (list byte)) : state :=
  mkState (repeat x00 (Z.to_nat BUFFER_SIZE)) BUFFER_SIZE 0 input 0%nat
    EmptyString EmptyString false.

(** ** Generator adapter *)

(** A [void *]; the adapter only ever stores and receives [NULL]. *)
Inductive voidptr : Type :=
| NULL
| Addr (a : Z).

(** [double] is IEEE binary64: 53 bits of precision, exponents below 1024. *)
Definition double_prec : Z := 53.
Definition double_emax : Z := 1024.

(** The conversion of a [uint32_t] to [double] (round to nearest even). *)
Definition double_of_uint32 (v : Z) : spec_float :=
  binary_normalize double_prec double_emax v 0 false.

(** The literal [4294967296.0]. *)
Definition lit_4294967296 : spec_float :=
  binary_normalize double_prec double_emax 4294967296 0 false.

(** Division of two [double]s. *)
Definition double_div (x y : spec_float) : spec_float :=
  SFdiv double_prec double_emax x y.

(** <<
    static unsigned long stdin_bits(void *param, void *state) {
        return (unsigned long)read_uint32();
    }
    >>
    [unsigned long] is at least as wide as [uint32_t], so the cast keeps the
    value. *)
Definition stdin_bits (param st_ptr : voidptr) : M Z :=
  v <- read_uint32 ;; ret v.

(** <<
    static double stdin_u01(void *param, void *state) {
        return read_uint32() / 4294967296.0;
    }
    >> *)
Definition stdin_u01 (param st_ptr : voidptr) : M spec_float :=
  v <- read_uint32 ;; ret (double_div (double_of_uint32 v) lit_4294967296).

(** <<
    static void write_state(void *state) { printf("\n"); }
    >> *)
Definition write_state (st_ptr : voidptr) : M unit := print_out LF.

(** The fields of TestU01's [unif01_Gen] that the program sets. *)
Record unif01_Gen : Type := mkGen {
  gen_state : voidptr;
  gen_param : voidptr;
  gen_name : string;
  GetU01 : voidptr -> voidptr -> M spec_float;
  GetBits : voidptr -> voidptr -> M Z;
  Write : voidptr -> M unit
}.

(** [create_stdin_gen]: [malloc] the handle, or report and [exit(1)]; then
    fill the fields ([strdup] copies the name). *)
Definition create_stdin_gen (name : string) : M unif01_Gen :=
  fun st =>
    if heap_exhausted st
    then (print_err ("Error: malloc failed" ++ LF)%string ;;; exit 1) st
    else Return (mkGen NULL NULL name stdin_u01 stdin_bits write_state) st.

(** [delete_stdin_gen]: the two [free]s; nothing observable. *)
Definition delete_stdin_gen (gen : unif01_Gen) : M unit := ret tt.

(** ** Command line and battery dispatch *)

(** [strcmp]: negative, zero or positive by the first differing character. *)
Definition strcmp (a b : string) : Z :=
  match String.compare a b with
  | Eq => 0
  | Lt => -1
  | Gt => 1
  end.

(** [strcmp(a, s) == 0 || strcmp(a, l) == 0] *)
Definition is_flag (a s l : string) : bool :=
  (strcmp a s =? 0) || (strcmp a l =? 0).

(** How the argument loop of [main] ends: it runs off the end of [argv] with
    the two locals set, or [main] returns from inside it. *)
Inductive scan_end : Type :=
| Selected (name : string) (test_type : Z)
| Returned (status : Z).

(** The [printf] calls of the help branch, [argv0] being [argv[0]]. *)
Definition usage (argv0 : string) : string :=
  ("Usage: " ++ argv0 ++ " [OPTIONS]" ++ LF ++
   LF ++ "Reads random bytes from stdin and runs TestU01 battery." ++ LF ++
   LF ++ "Options:" ++ LF ++
   "  -s, --small   Run SmallCrush (~10 seconds)" ++ LF ++
   "  -m, --medium  Run Crush (~30 minutes)" ++ LF ++
   "  -b, --big     Run BigCrush (~4 hours) [default]" ++ LF ++
   "  -n, --name    Generator name for report" ++ LF ++
   "  -h, --help    Show this help" ++ LF ++
   LF ++ "Example:" ++ LF ++
   "  ./target/release/rng_test | " ++ argv0 ++ " --small" ++ LF)%string.

(** [for (int i = 1; i < argc; i++) { ... }] from index [i] on, with the
    locals [name] and [test_type].  [fuel] bounds the number of iterations;
    [argc - i] is always enough ([main_loop_fuel]). *)
Fixpoint main_loop (fuel : nat) (argv : list string) (i : nat)
    (name : string) (test_type : Z) : M scan_end :=
  match fuel with
  | O => ret (Selected name test_type)
  | S fuel' =>
      if (i <? List.length argv)%nat then
        let arg := nth i argv EmptyString in
        if is_flag arg "-s" "--small" then
          main_loop fuel' argv (i + 1) name 0
        else if is_flag arg "-m" "--medium" then
          main_loop fuel' argv (i + 1) name 1
        else if is_flag arg "-b" "--big" then
          main_loop fuel' argv (i + 1) name 2
        else if is_flag arg "-n" "--name" then
          if (i + 1 <? List.length argv)%nat then
            main_loop fuel' argv (i + 1 + 1) (nth (i + 1) argv EmptyString)
              test_type
          else
            main_loop fuel' argv (i + 1) name test_type
        else if is_flag arg "-h" "--help" then
          print_out (usage (nth 0 argv EmptyString)) ;;; ret (Returned 0)
        else
          main_loop fuel' argv (i + 1) name test_type
      else ret (Selected name test_type)
  end.

Section Batteries.

(** The three TestU01 entry points; each drives the generator it is given. *)
Variables bbattery_SmallCrush bbattery_Crush bbattery_BigCrush
  : unif01_Gen -> M unit.

(** The [switch (test_type)] of [main]. *)
Definition run_battery (test_type : Z) (name : string) (gen : unif01_Gen)
  : M unit :=
  match test_type with
  | 0 => print_out ("Running SmallCrush on '" ++ name ++ "'..." ++ LF)%string ;;;
         bbattery_SmallCrush gen
  | 1 => print_out ("Running Crush on '" ++ name ++ "'..." ++ LF)%string ;;;
         bbattery_Crush gen
  | 2 => print_out ("Running BigCrush on '" ++ name ++ "'..." ++ LF)%string ;;;
         bbattery_BigCrush gen
  | _ => ret tt
  end.

(** [main] after the argument loop. *)
Definition dispatch (name : string) (test_type : Z) : M Z :=
  gen <- create_stdin_gen name ;;
  run_battery test_type name gen ;;;
  delete_stdin_gen gen ;;;
  ret 0.

(** [int main(int argc, char *argv[])], with [argc = length argv]. *)
Definition main (argv : list string) : M Z :=
  r <- main_loop (List.length argv) argv 1 "Rust RNG" 2 ;;
  match r with
  | Returned status => ret status
  | Selected name test_type => dispatch name test_type
  end.

End Batteries.

(** The status with which the process ends. *)
Definition exit_status (o : outcome Z) : Z :=
  match o with
  | Return status _ => status
  | Exit status _ => status
  end.

Definition final_state {A} (o : outcome A) : state :=
  match o with
  | Return _ st => st
  | Exit _ st => st
  end.

(** ** Callers and specification-level notions *)

(** A caller that invokes [read_uint32] [n] times and keeps the values. *)
Fixpoint read_many (n : nat) : M (list Z) :=
  match n with
  | O => ret []
  | S n' =>
      v <- read_uint32 ;;
      vs <- read_many n' ;;
      ret (v :: vs)
  end.

(** The little-endian value of four bytes, first byte least significant. *)
Definition le32 (b0 b1 b2 b3 : byte) : Z :=
  byte_to_Z b0 + 2 ^ 8 * byte_to_Z b1 + 2 ^ 16 * byte_to_Z b2
  + 2 ^ 24 * byte_to_Z b3.

(** The complete 4-byte little-endian groups of a byte sequence, in order. *)
Fixpoint le_groups (bytes : list byte) : list Z :=
  match bytes with
  | b0 :: b1 :: b2 :: b3 :: rest => le32 b0 b1 b2 b3 :: le_groups rest
  | _ => []
  end.

(** The bytes of the current fill that the cursor has not passed. *)
Definition unread (st : state) : list byte :=
  firstn (Z.to_nat (buffer_len st - buffer_pos st))
    (skipn (Z.to_nat (buffer_pos st)) (buffer st)).

(** The logical byte sequence still ahead of the reader: what is left of the
    current fill, then everything standard input has yet to deliver. *)
Definition pending (st : state) : list byte :=
  unread st ++ List.concat (stdin st).

(** Standard input delivers no empty piece before its end. *)
Definition live_input (input : list (list byte)) : Prop :=
  Forall (fun piece => piece <> []) input.

(** What the reader relies on between two of its operations. *)
Record reader_ok (st : state) : Prop := mkReaderOk {
  ok_buffer : List.length (buffer st) = Z.to_nat BUFFER_SIZE;
  ok_len : 0 <= buffer_len st <= BUFFER_SIZE;
  ok_pos : 0 <= buffer_pos st <= BUFFER_SIZE;
  ok_input : live_input (stdin st)
}.

(** The ByteBuffer invariant as the specification words it. *)
Definition buffer_invariant (st : state) : Prop :=
  buffer_pos st <= buffer_len st /\ buffer_len st <= BUFFER_SIZE.

(** One operation of the stream reader: a refill, one iteration of the loop
    of [read_uint32], or a whole [read_uint32]; an operation that terminates
    the process leaves the state in which it does so. *)
Inductive reader_step : state -> state -> Prop :=
| step_refill st :
    reader_step st (final_state (refill_buffer st))
| step_body i value st :
    reader_step st (final_state (read_uint32_body i value st))
| step_read st :
    reader_step st (final_state (read_uint32 st)).

(** The states the reader can be in after at least one operation. *)
Definition reached_from (st0 : state) : state -> Prop :=
  clos_trans_1n state reader_step st0.

(** The two accessors the battery may call. *)
Inductive accessor : Type :=
| CallBits
| CallU01.

(** What one accessor call hands back. *)
Inductive drawn : Type :=
| Bits (v : Z)
| U01 (x : spec_float).

(** One call through the generator handle. *)
Definition call (gen : unif01_Gen) (a : accessor) : M drawn :=
  match a with
  | CallBits => v <- GetBits gen (gen_param gen) (gen_state gen) ;; ret (Bits v)
  | CallU01 => x <- GetU01 gen (gen_param gen) (gen_state gen) ;; ret (U01 x)
  end.

(** A battery run seen from the adapter: a sequence of accessor calls. *)
Fixpoint run_calls (gen : unif01_Gen) (calls : list accessor)
  : M (list drawn) :=
  match calls with
  | [] => ret []
  | a :: calls' =>
      d <- call gen a ;;
      ds <- run_calls gen calls' ;;
      ret (d :: ds)
  end.

(** The handle [create_stdin_gen] fills in for [name]. *)
Definition stdin_gen (name : string) : unif01_Gen :=
  mkGen NULL NULL name stdin_u01 stdin_bits write_state.

(** The value accessor [a] makes of the 32-bit draw [v]. *)
Definition present (a : accessor) (v : Z) : drawn :=
  match a with
  | CallBits => Bits v
  | CallU01 => U01 (double_div (double_of_uint32 v) lit_4294967296)
  end.

(** Accessor [i] paired with draw [i]. *)
Fixpoint present_all (calls : list accessor) (draws : list Z) : list drawn :=
  match calls, draws with
  | a :: calls', v :: draws' => present a v :: present_all calls' draws'
  | _, _ => []
  end.

(** What a caller can see of a run: the values handed back, or the exit
    status and the text on standard error. *)
Definition observable {A} (o : outcome A) : A + Z * string :=
  match o with
  | Return a _ => inl a
  | Exit status st => inr (status, stderr st)
  end.

(** The message of a fatal exhaustion. *)
Definition exhausted_msg : string := ("Error: stdin exhausted" ++ LF)%string.

(** The output streams and the allocator are left as they were. *)
Definition same_io (st st' : state) : Prop :=
  stdout st' = stdout st /\ stderr st' = stderr st
  /\ heap_exhausted st' = heap_exhausted st.

(** The accumulator of [read_uint32] after the loop has folded [bytes] into
    [value], starting at index [i]. *)
Fixpoint assemble (i value : Z) (bytes : list byte) : Z :=
  match bytes with
  | [] => value
  | b :: bytes' =>
      assemble (i + 1)
        (Z.lor value (uint32 (Z.shiftl (byte_to_Z b) (i * 8)))) bytes'
  end.

(** What [n] calls of [read_uint32] show of a logical byte sequence, said
    without any buffer: the first [n] groups if the sequence holds them, the
    fatal report otherwise. *)
Definition decode_prefix (n : nat) (bytes : list byte) : list Z + Z * string :=
  if (4 * n <=? List.length bytes)%nat
  then inl (le_groups (firstn (4 * n) bytes))
  else inr (1, exhausted_msg).

(** The argument loop of [main] as a recursion over the arguments not yet
    examined ([skipn i argv]); [main_loop_scan] relates the two. *)
Fixpoint scan (argv0 : string) (args : list string)
    (name : string) (test_type : Z) : M scan_end :=
  match args with
  | [] => ret (Selected name test_type)
  | arg :: args' =>
      if is_flag arg "-s" "--small" then scan argv0 args' name 0
      else if is_flag arg "-m" "--medium" then scan argv0 args' name 1
      else if is_flag arg "-b" "--big" then scan argv0 args' name 2
      else if is_flag arg "-n" "--name" then
        match args' with
        | value :: args'' => scan argv0 args'' value test_type
        | [] => scan argv0 args' name test_type
        end
      else if is_flag arg "-h" "--help" then
        print_out (usage argv0) ;;; ret (Returned 0)
      else scan argv0 args' name test_type
  end.

(** An argument that matches none of the five options. *)
Definition unknown_arg (arg : string) : Prop :=
  is_flag arg "-s" "--small" = false /\ is_flag arg "-m" "--medium" = false
  /\ is_flag arg "-b" "--big" = false /\ is_flag arg "-n" "--name" = false
  /\ is_flag arg "-h" "--help" = false.

(** The arguments the loop examines as options when it runs to the end: all
    of them except the value that follows each [-n]/[--name]. *)
Fixpoint examined (args : list string) : list string :=
  match args with
  | [] => []
  | arg :: args' =>
      arg :: (if is_flag arg "-n" "--name"
              then match args' with
                   | _ :: args'' => examined args''
                   | [] => []
                   end
              else examined args')
  end.

(** The battery chosen by the last battery flag of [args], [test_type] if
    there is none. *)
Definition last_battery (args : list string) (test_type : Z) : Z :=
  fold_left
    (fun t arg =>
       if is_flag arg "-s" "--small" then 0
       else if is_flag arg "-m" "--medium" then 1
       else if is_flag arg "-b" "--big" then 2
       else t)
    args test_type.

(** Whether the loop, having run through all of [args], has just examined a
    [-n]/[--name] whose value is still to come: the argument that follows
    [args] on the command line would then be taken as the name, not examined
    as an option. *)
Fixpoint awaits_value (args : list string) : bool :=
  match args with
  | [] => false
  | arg :: args' =>
      if is_flag arg "-n" "--name"
      then match args' with
           | _ :: args'' => awaits_value args''
           | [] => true
           end
      else awaits_value args'
  end.

(** The state after the help text has been printed. *)
Definition help_shown (argv0 : string) (st : state) : state :=
  mkState (buffer st) (buffer_pos st) (buffer_len st) (stdin st)
    (stdin_reads st) (stdout st ++ usage argv0)%string (stderr st)
    (heap_exhausted st).

(** A battery that draws one value through [GetBits]. *)
Definition one_draw_battery (gen : unif01_Gen) : M unit :=
  GetBits gen (gen_param gen) (gen_state gen) ;;; ret tt.

(** The literals [0.0] and [1.0]. *)
Definition double_zero : spec_float := S754_zero false.
Definition double_one : spec_float :=
  binary_normalize double_prec double_emax 1 0 false.

(** The comparisons [x <= y] and [x < y] on [double]. *)
Definition double_le (x y : spec_float) : bool := SFleb x y.
Definition double_lt (x y : spec_float) : bool := SFltb x y.

(** [x] is finite and its exact value is the rational [q]. *)
Definition double_exact (x : spec_float) (q : Q) : Prop :=
  match x with
  | S754_zero _ => Qeq q (inject_Z 0)
  | S754_finite s m e =>
      let sm := if s then Z.neg m else Z.pos m in
      match e with
      | Z.neg k => Qeq q (Qmake sm (2 ^ k))
      | _ => Qeq q (inject_Z (sm * 2 ^ e))
      end
  | _ => False
  end.

(** Bytes 0, 1, ..., 255, 0, 1, ...: a test pattern of length [n]. *)
Definition ramp (n : nat) : list byte :=
  map (fun k => match Byte.of_N (N.of_nat k mod 256) with
                | Some b => b
                | None => x00
                end) (seq 0 n).

(** What every reader operation needs of the two indices on entry; it holds
    at process start, where the specification's invariant does not. *)
Definition cursor_sane (st : state) : Prop :=
  0 <= buffer_pos st /\ buffer_len st <= BUFFER_SIZE.

(** ** Notions used by the further properties *)

(** The guard of the loop body of [read_uint32], before the array is read:
    <<
        if (buffer_pos >= buffer_len) {
            if (!refill_buffer()) {
                fprintf(stderr, "Error: stdin exhausted\n");
                exit(1);
            }
        }
    >> *)
Definition ensure_byte : M unit :=
  fun st =>
    (if buffer_pos st >=? buffer_len st
     then (filled <- refill_buffer ;;
           if negb filled
           then print_err ("Error: stdin exhausted" ++ LF)%string ;;; exit 1
           else ret tt)
     else ret tt) st.

(** The byte whose value is [z mod 256]. *)
Definition byte_of_Z (z : Z) : byte :=
  match Byte.of_N (Z.to_N (z mod 256)) with
  | Some b => b
  | None => x00
  end.

(** The four bytes a producer writes for the 32-bit value [v], least
    significant first. *)
Definition le_bytes (v : Z) : list byte :=
  [byte_of_Z v; byte_of_Z (v / 2 ^ 8); byte_of_Z (v / 2 ^ 16);
   byte_of_Z (v / 2 ^ 24)].

(** The report of a failed [malloc]. *)
Definition malloc_msg : string := ("Error: malloc failed" ++ LF)%string.

(** The name [main] prints for the battery of a [test_type]. *)
Definition battery_title (test_type : Z) : string :=
  match test_type with
  | 0 => "SmallCrush"
  | 1 => "Crush"
  | _ => "BigCrush"
  end.

(** The line [main] prints before it calls the battery. *)
Definition banner (test_type : Z) (name : string) : string :=
  ("Running " ++ battery_title test_type ++ " on '" ++ name ++ "'..." ++ LF)
  %string.

(** The entry point the [switch] of [main] calls for a [test_type]. *)
Definition battery_called (bS bC bB : unif01_Gen -> M unit) (test_type : Z)
  : unif01_Gen -> M unit :=
  match test_type with
  | 0 => bS
  | 1 => bC
  | _ => bB
  end.

(** A battery that makes the accessor calls [calls], in order, and returns. *)
Definition script_battery (calls : list accessor) (gen : unif01_Gen)
  : M unit :=
  run_calls gen calls ;;; ret tt.

(** [st] with the text on standard output replaced by [s]. *)
Definition set_stdout (s : string) (st : state) : state :=
  mkState (buffer st) (buffer_pos st) (buffer_len st) (stdin st)
    (stdin_reads st) s (stderr st) (heap_exhausted st).

(** An outcome with its final state changed by [f]. *)
Definition map_state {A} (f : state -> state) (o : outcome A) : outcome A :=
  match o with
  | Return a st => Return a (f st)
  | Exit status st => Exit status (f st)
  end.

(** No argument of [args] is [-n]/[--name] or [-h]/[--help]. *)
Definition plain_args (args : list string) : Prop :=
  forall a, In a args ->
    is_flag a "-n" "--name" = false /\ is_flag a "-h" "--help" = false.

(** Standard input holding the bytes [rest] as one piece, as when [fread]
    always fills the whole array while bytes remain. *)
Definition one_piece (rest : list byte) : list (list byte) :=
  match rest with
  | [] => []
  | _ => [rest]
  end.

(** The reader after [j] values of the one-piece input [bytes], [reads]
    calls of [fread] having been issued: [fread] has delivered the first
    [4096 * reads] bytes, and the current fill holds those of them beyond
    the first [4 * j]. *)
Record block_state (bytes : list byte) (j : Z) (reads : nat) (st : state)
  : Prop := mkBlockState {
  blk_pos : 0 <= buffer_pos st;
  blk_len : buffer_len st <= BUFFER_SIZE;
  blk_reads : stdin_reads st = reads;
  blk_stdin : stdin st = one_piece (skipn (4096 * reads) bytes);
  blk_unread :
    Z.max 0 (buffer_len st - buffer_pos st)
    = Z.min (Z.of_nat (List.length bytes)) (4096 * Z.of_nat reads) - 4 * j;
  blk_ceil : 4 * j <= 4096 * Z.of_nat reads < 4 * j + 4096
}.

(** The array still has its 4096 bytes. *)
Definition array_whole (st : state) : Prop :=
  List.length (buffer st) = Z.to_nat BUFFER_SIZE.

(** What one operation may do to the streams: nothing to standard output,
    nothing to the allocator, and reads are only ever added. *)
Definition reads_only (st st' : state) : Prop :=
  stdout st' = stdout st
  /\ heap_exhausted st' = heap_exhausted st
  /\ (stdin_reads st <= stdin_reads st')%nat.

(** Fold the integer operations of [SpecFloat] back into those of [ZArith],
    which [lia] knows. *)
Ltac std_Z :=
  repeat match goal with
         | |- context [IntDef.Z.min ?a ?b] =>
             change (IntDef.Z.min a b) with (Z.min a b)
         | |- context [IntDef.Z.max ?a ?b] =>
             change (IntDef.Z.max a b) with (Z.max a b)
         | |- context [IntDef.Z.shiftl ?a ?b] =>
             change (IntDef.Z.shiftl a b) with (Z.shiftl a b)
         | |- context [IntDef.Z.div_eucl ?a ?b] =>
             change (IntDef.Z.div_eucl a b) with (Z.div_eucl a b)
         end.

(** * Proofs *)

(** ** Lists and the input stream *)

Lemma skipn_nth_cons {A} (d : A) (l : list A) (n : nat) :
  (n < List.length l)%nat -> skipn n l = nth n l d :: skipn (S n) l.
Proof.
  revert l; induction n as [|n IH]; intros [|x l] H; simpl in *; try lia.
  - reflexivity.
  - apply IH; lia.
Qed.

Lemma firstn_skipn_step {A} (d : A) (l : list A) (p k : nat) :
  (p < List.length l)%nat ->
  firstn (S k) (skipn p l) = nth p l d :: firstn k (skipn (S p) l).
Proof. intros H. rewrite (skipn_nth_cons d) by assumption. reflexivity. Qed.

Lemma live_input_concat_nil input :
  live_input input -> List.concat input = [] -> input = [].
Proof.
  intros H E. destruct H as [|piece later Hp _]; [reflexivity|].
  simpl in E. apply app_eq_nil in E. tauto.
Qed.

Lemma fread_spec n input got input' :
  0 < n -> live_input input -> fread n input = (got, input') ->
  got ++ List.concat input' = List.concat input
  /\ live_input input'
  /\ Z.of_nat (List.length got) <= n
  /\ (got = [] -> input = []).
Proof.
  intros Hn Hlive. unfold fread.
  destruct Hlive as [|piece later Hp Hl].
  - intros E; inversion E; subst; simpl. repeat split; auto; try lia. constructor.
  - pose proof (firstn_skipn (Z.to_nat n) piece) as Hsplit.
    pose proof (firstn_le_length (Z.to_nat n) piece) as Hle.
    assert (Hne : firstn (Z.to_nat n) piece = [] -> False).
    { destruct piece; [congruence|]. destruct (Z.to_nat n) eqn:E; [lia|]. discriminate. }
    destruct (skipn (Z.to_nat n) piece) as [|b rest] eqn:Es;
      intros E; inversion E; subst; clear E.
    + rewrite app_nil_r in Hsplit. rewrite Hsplit.
      repeat split; auto; try lia.
      * rewrite <- Hsplit at 1. rewrite length_firstn. lia.
      * intros; subst; contradiction.
    + repeat split.
      * cbn [List.concat]. rewrite app_assoc. now rewrite Hsplit.
      * constructor; [discriminate|assumption].
      * rewrite length_firstn. lia.
      * intros E. exfalso. auto.
Qed.

Lemma size_t_small z : 0 <= z <= BUFFER_SIZE -> size_t (z + 1) = z + 1.
Proof. unfold size_t, BUFFER_SIZE. intros H. apply Z.mod_small. lia. Qed.

Lemma store_prefix_length got old :
  (List.length got <= List.length old)%nat ->
  List.length (store_prefix got old) = List.length old.
Proof.
  intros H. unfold store_prefix. rewrite length_app, length_skipn. lia.
Qed.

Lemma body_next i value st b rest :
  reader_ok st -> pending st = b :: rest ->
  exists st',
    read_uint32_body i value st
      = Return (Z.lor value (uint32 (Z.shiftl (byte_to_Z b) (i * 8)))) st'
    /\ reader_ok st' /\ pending st' = rest /\ same_io st st'
    /\ buffer_invariant st'.
Proof.
  intros [Hbuf Hlen Hpos Hin] Hpend.
  unfold read_uint32_body, bind, pending, unread in *.
  destruct (buffer_pos st >=? buffer_len st) eqn:Hcmp.
  - (* the buffer is drained: refill *)
    rewrite Z.geb_leb in Hcmp. apply Z.leb_le in Hcmp.
    replace (Z.to_nat (buffer_len st - buffer_pos st)) with 0%nat in Hpend by lia.
    simpl in Hpend.
    unfold refill_buffer.
    destruct (fread BUFFER_SIZE (stdin st)) as [got input'] eqn:Hfread.
    destruct (fread_spec BUFFER_SIZE _ _ _ eq_refl Hin Hfread) as (Hcat & Hlive & Hshort & Hnil).
    destruct got as [|g gs].
    { rewrite Hnil in Hpend by reflexivity. discriminate. }
    rewrite <- Hcat in Hpend. injection Hpend as -> Hrest.
    cbn [List.length]. rewrite Nat2Z.inj_succ.
    replace (0 <? Z.succ (Z.of_nat (List.length gs))) with true
      by (symmetry; apply Z.ltb_lt; lia).
    cbn [negb ret take_byte buffer buffer_pos buffer_len stdin stdin_reads
         stdout stderr heap_exhausted].
    eexists. split; [reflexivity|].
    cbn [List.length] in Hshort. rewrite Nat2Z.inj_succ in Hshort.
    unfold BUFFER_SIZE in *.
    repeat split; cbn [buffer buffer_pos buffer_len stdin stdout stderr heap_exhausted];
      try assumption; try (rewrite ?size_t_small; unfold BUFFER_SIZE; lia).
    + rewrite store_prefix_length; [assumption|]. cbn [List.length]. lia.
    + rewrite size_t_small by (unfold BUFFER_SIZE; lia).
      unfold store_prefix.
      generalize (skipn (List.length (b :: gs)) (buffer st)); intros tail.
      replace (Z.to_nat (Z.succ (Z.of_nat (List.length gs)) - (0 + 1)))
        with (List.length gs + 0)%nat by lia.
      change (Z.to_nat (0 + 1)) with 1%nat. cbn [skipn app].
      rewrite firstn_app_2. cbn [firstn]. rewrite app_nil_r. exact Hrest.
  - (* bytes of the current fill remain *)
    rewrite Z.geb_leb in Hcmp. apply Z.leb_gt in Hcmp.
    cbn [ret take_byte].
    replace (Z.to_nat (buffer_len st - buffer_pos st))
      with (S (Z.to_nat (buffer_len st - (buffer_pos st + 1)))) in Hpend by lia.
    rewrite (firstn_skipn_step x00) in Hpend by (unfold BUFFER_SIZE in *; lia).
    rewrite <- app_comm_cons in Hpend.
    assert (Hb : nth (Z.to_nat (buffer_pos st)) (buffer st) x00 = b) by congruence.
    assert (Hrest : firstn (Z.to_nat (buffer_len st - (buffer_pos st + 1)))
                      (skipn (S (Z.to_nat (buffer_pos st))) (buffer st))
                    ++ List.concat (stdin st) = rest) by congruence.
    clear Hpend. rewrite Hb.
    eexists. split; [reflexivity|].
    repeat split; cbn [buffer buffer_pos buffer_len stdin stdout stderr heap_exhausted];
      try assumption; try (rewrite ?size_t_small by lia; unfold BUFFER_SIZE in *; lia).
    rewrite size_t_small by lia.
    replace (Z.to_nat (buffer_pos st + 1)) with (S (Z.to_nat (buffer_pos st))) by lia.
    exact Hrest.
Qed.

Lemma pending_nil_drained st :
  reader_ok st -> pending st = [] ->
  buffer_len st <= buffer_pos st /\ stdin st = [].
Proof.
  intros [Hbuf Hlen Hpos Hin] Hpend. unfold pending, unread in Hpend.
  apply app_eq_nil in Hpend. destruct Hpend as [Hun Hcat]. split.
  - destruct (Z_le_gt_dec (buffer_len st) (buffer_pos st)) as [|Hgt]; [assumption|].
    exfalso.
    replace (Z.to_nat (buffer_len st - buffer_pos st))
      with (S (Z.to_nat (buffer_len st - (buffer_pos st + 1)))) in Hun by lia.
    rewrite (firstn_skipn_step x00) in Hun by (unfold BUFFER_SIZE in *; lia).
    discriminate.
  - now apply live_input_concat_nil.
Qed.

Lemma body_exhausted i value st :
  reader_ok st -> pending st = [] ->
  exists st',
    read_uint32_body i value st = Exit 1 st'
    /\ stderr st' = (stderr st ++ exhausted_msg)%string
    /\ stdout st' = stdout st
    /\ buffer_invariant st'.
Proof.
  intros Hok Hpend.
  destruct (pending_nil_drained st Hok Hpend) as [Hcmp Hin].
  unfold read_uint32_body, bind.
  replace (buffer_pos st >=? buffer_len st) with true
    by (symmetry; rewrite Z.geb_leb; now apply Z.leb_le).
  unfold refill_buffer. rewrite Hin. cbn.
  eexists. split; [reflexivity|]. cbn.
  unfold buffer_invariant, BUFFER_SIZE. cbn. repeat split; lia.
Qed.

Lemma same_io_refl st : same_io st st.
Proof. repeat split. Qed.

Lemma same_io_trans st1 st2 st3 :
  same_io st1 st2 -> same_io st2 st3 -> same_io st1 st3.
Proof. unfold same_io. intuition congruence. Qed.

Lemma loop_next remaining : forall i value st bytes rest,
  reader_ok st -> pending st = bytes ++ rest ->
  List.length bytes = remaining ->
  exists st',
    read_uint32_loop remaining i value st = Return (assemble i value bytes) st'
    /\ reader_ok st' /\ pending st' = rest /\ same_io st st'
    /\ (remaining <> 0%nat -> buffer_invariant st').
Proof.
  induction remaining as [|remaining IH]; intros i value st bytes rest Hok Hpend Hlen.
  - destruct bytes; [|discriminate]. exists st.
    split; [reflexivity|]. split; [assumption|]. split; [assumption|].
    split; [apply same_io_refl|]. intros H; now elim H.
  - destruct bytes as [|b bytes]; [discriminate|].
    injection Hlen as Hlen.
    destruct (body_next i value st b (bytes ++ rest) Hok Hpend)
      as (st1 & Hbody & Hok1 & Hpend1 & Hio1 & Hinv1).
    destruct (IH (i + 1) (Z.lor value (uint32 (Z.shiftl (byte_to_Z b) (i * 8))))
                st1 bytes rest Hok1 Hpend1 Hlen)
      as (st2 & Hloop & Hok2 & Hpend2 & Hio2 & Hinv2).
    exists st2. cbn [read_uint32_loop assemble]. unfold bind. rewrite Hbody, Hloop.
    split; [reflexivity|]. split; [assumption|]. split; [assumption|].
    split; [eapply same_io_trans; eassumption|]. intros _.
    destruct remaining; [|apply Hinv2; discriminate].
    cbn in Hloop. unfold ret in Hloop. injection Hloop as _ <-. apply Hinv1.
Qed.

Lemma loop_exhausted remaining : forall i value st,
  reader_ok st -> (List.length (pending st) < remaining)%nat ->
  exists st',
    read_uint32_loop remaining i value st = Exit 1 st'
    /\ stderr st' = (stderr st ++ exhausted_msg)%string
    /\ stdout st' = stdout st
    /\ buffer_invariant st'.
Proof.
  induction remaining as [|remaining IH]; intros i value st Hok Hshort; [lia|].
  cbn [read_uint32_loop]. unfold bind.
  destruct (pending st) as [|b rest] eqn:Hpend.
  - destruct (body_exhausted i value st Hok Hpend) as (st' & Hbody & Hrest).
    exists st'. rewrite Hbody. split; [reflexivity|exact Hrest].
  - destruct (body_next i value st b rest Hok Hpend)
      as (st1 & Hbody & Hok1 & Hpend1 & (Hout & Herr & _) & _).
    rewrite Hbody.
    destruct (IH (i + 1) (Z.lor value (uint32 (Z.shiftl (byte_to_Z b) (i * 8)))) st1 Hok1)
      as (st' & Hloop & Herr' & Hout' & Hinv).
    { rewrite Hpend1. cbn [List.length] in Hshort. lia. }
    exists st'. rewrite Hloop. split; [reflexivity|].
    rewrite Herr', Hout', Herr, Hout. auto.
Qed.

Lemma byte_to_Z_range b : 0 <= byte_to_Z b < 2 ^ 8.
Proof.
  unfold byte_to_Z. pose proof (Byte.to_N_bounded b).
  change (2 ^ 8) with 256. lia.
Qed.

Lemma lor_shifted_add a b k :
  0 <= k -> 0 <= a < 2 ^ k -> 0 <= b ->
  Z.lor a (b * 2 ^ k) = a + b * 2 ^ k.
Proof.
  intros Hk Ha Hb. rewrite <- Z.add_lor_land.
  assert (Hland : Z.land a (b * 2 ^ k) = 0).
  { apply Z.bits_inj'. intros n Hn. rewrite Z.land_spec, Z.bits_0.
    destruct (Z_lt_ge_dec n k) as [Hlt|Hge].
    - rewrite Z.mul_pow2_bits_low by assumption. apply andb_false_r.
    - destruct (Z.eq_dec a 0) as [->|Hnz]; [now rewrite Z.bits_0|].
      rewrite Z.bits_above_log2; [reflexivity|lia|].
      apply Z.log2_lt_pow2; [lia|].
      apply Z.lt_le_trans with (2 ^ k); [lia|].
      apply Z.pow_le_mono_r; lia. }
  rewrite Hland. lia.
Qed.

Lemma assemble_le32 b0 b1 b2 b3 :
  assemble 0 0 [b0; b1; b2; b3] = le32 b0 b1 b2 b3.
Proof.
  pose proof (byte_to_Z_range b0). pose proof (byte_to_Z_range b1).
  pose proof (byte_to_Z_range b2). pose proof (byte_to_Z_range b3).
  unfold assemble, le32, uint32.
  change (0 * 8) with 0. change ((0 + 1) * 8) with 8.
  change ((0 + 1 + 1) * 8) with 16. change ((0 + 1 + 1 + 1) * 8) with 24.
  rewrite !Z.shiftl_mul_pow2 by lia.
  rewrite !Z.mod_small by (change (2 ^ 0) with 1; change (2 ^ 8) with 256 in *;
    change (2 ^ 16) with 65536; change (2 ^ 24) with 16777216;
    change (2 ^ 32) with 4294967296; lia).
  rewrite Z.lor_0_l.
  change (byte_to_Z b0 * 2 ^ 0) with (byte_to_Z b0 * 1). rewrite Z.mul_1_r.
  rewrite (lor_shifted_add (byte_to_Z b0)) by lia.
  rewrite (lor_shifted_add (byte_to_Z b0 + byte_to_Z b1 * 2 ^ 8)) by lia.
  rewrite lor_shifted_add by lia.
  lia.
Qed.

Lemma le32_range b0 b1 b2 b3 : 0 <= le32 b0 b1 b2 b3 < 2 ^ 32.
Proof.
  pose proof (byte_to_Z_range b0). pose proof (byte_to_Z_range b1).
  pose proof (byte_to_Z_range b2). pose proof (byte_to_Z_range b3).
  unfold le32. change (2 ^ 8) with 256 in *. change (2 ^ 16) with 65536.
  change (2 ^ 24) with 16777216. change (2 ^ 32) with 4294967296. lia.
Qed.

Lemma read_uint32_next st b0 b1 b2 b3 rest :
  reader_ok st -> pending st = b0 :: b1 :: b2 :: b3 :: rest ->
  exists st',
    read_uint32 st = Return (le32 b0 b1 b2 b3) st'
    /\ reader_ok st' /\ pending st' = rest /\ same_io st st'
    /\ buffer_invariant st'.
Proof.
  intros Hok Hpend.
  destruct (loop_next 4 0 0 st [b0; b1; b2; b3] rest Hok Hpend eq_refl)
    as (st' & Hloop & Hok' & Hpend' & Hio & Hinv).
  exists st'. unfold read_uint32. rewrite Hloop, assemble_le32.
  split; [reflexivity|]. repeat (split; [assumption|]). apply Hinv. discriminate.
Qed.

Lemma read_uint32_exhausted st :
  reader_ok st -> (List.length (pending st) < 4)%nat ->
  exists st',
    read_uint32 st = Exit 1 st'
    /\ stderr st' = (stderr st ++ exhausted_msg)%string
    /\ stdout st' = stdout st
    /\ buffer_invariant st'.
Proof. intros Hok Hshort. now apply loop_exhausted. Qed.

Lemma read_many_next n : forall st bytes rest,
  reader_ok st -> pending st = bytes ++ rest ->
  List.length bytes = (4 * n)%nat ->
  exists st',
    read_many n st = Return (le_groups bytes) st'
    /\ reader_ok st' /\ pending st' = rest /\ same_io st st'.
Proof.
  induction n as [|n IH]; intros st bytes rest Hok Hpend Hlen.
  - destruct bytes; [|discriminate]. exists st.
    repeat (split; [easy|]). apply same_io_refl.
  - destruct bytes as [|b0 [|b1 [|b2 [|b3 bytes]]]]; try (cbn in Hlen; lia).
    destruct (read_uint32_next st b0 b1 b2 b3 (bytes ++ rest) Hok Hpend)
      as (st1 & Hread & Hok1 & Hpend1 & Hio1 & _).
    destruct (IH st1 bytes rest Hok1 Hpend1) as (st2 & Hmany & Hok2 & Hpend2 & Hio2).
    { cbn [List.length] in Hlen. lia. }
    exists st2. cbn [read_many le_groups]. unfold bind. rewrite Hread, Hmany.
    repeat (split; [easy|]). eapply same_io_trans; eassumption.
Qed.

Lemma le_groups_length bytes n :
  List.length bytes = (4 * n)%nat -> List.length (le_groups bytes) = n.
Proof.
  revert bytes; induction n as [|n IH]; intros bytes Hlen.
  - destruct bytes; [reflexivity|discriminate].
  - destruct bytes as [|b0 [|b1 [|b2 [|b3 bytes]]]]; try (cbn in Hlen; lia).
    cbn [le_groups List.length]. f_equal. apply IH. cbn [List.length] in Hlen. lia.
Qed.

Lemma initial_state_ok input : live_input input -> reader_ok (initial_state input).
Proof.
  intros H. split; cbn; unfold BUFFER_SIZE; try lia; try assumption.
  now rewrite repeat_length.
Qed.

Lemma initial_state_pending input : pending (initial_state input) = List.concat input.
Proof. reflexivity. Qed.

(** ** Decoding a whole stream *)

Lemma le_groups_app bytes : forall n rest,
  List.length bytes = (4 * n)%nat ->
  le_groups (bytes ++ rest) = le_groups bytes ++ le_groups rest.
Proof.
  intros n; revert bytes; induction n as [|n IH]; intros bytes rest Hlen.
  - destruct bytes; [reflexivity|discriminate].
  - destruct bytes as [|b0 [|b1 [|b2 [|b3 bytes]]]]; try (cbn in Hlen; lia).
    cbn [le_groups app]. f_equal. apply IH. cbn [List.length] in Hlen. lia.
Qed.

Lemma le_groups_short rest : (List.length rest < 4)%nat -> le_groups rest = [].
Proof.
  destruct rest as [|b0 [|b1 [|b2 [|b3 rest]]]]; cbn; intros; try reflexivity; lia.
Qed.

Lemma le_groups_nth bytes : forall n k,
  List.length bytes = (4 * n)%nat -> (k < n)%nat ->
  nth k (le_groups bytes) 0
  = le32 (nth (4 * k) bytes x00) (nth (4 * k + 1) bytes x00)
      (nth (4 * k + 2) bytes x00) (nth (4 * k + 3) bytes x00).
Proof.
  intros n; revert bytes; induction n as [|n IH]; intros bytes k Hlen Hk; [lia|].
  destruct bytes as [|b0 [|b1 [|b2 [|b3 bytes]]]]; try (cbn in Hlen; lia).
  destruct k as [|k]; [reflexivity|].
  replace (4 * S k)%nat with (S (S (S (S (4 * k))))) by lia.
  cbn [le_groups nth Nat.add].
  apply IH; cbn [List.length] in Hlen; lia.
Qed.

Lemma read_many_exhausted n : forall st,
  reader_ok st -> (List.length (pending st) < 4 * n)%nat ->
  exists st',
    read_many n st = Exit 1 st'
    /\ stderr st' = (stderr st ++ exhausted_msg)%string.
Proof.
  induction n as [|n IH]; intros st Hok Hshort; [lia|].
  cbn [read_many]. unfold bind.
  destruct (pending st) as [|b0 [|b1 [|b2 [|b3 rest]]]] eqn:Hpend;
    try (destruct (read_uint32_exhausted st Hok) as (st' & Hread & Herr & _);
         [rewrite Hpend; cbn; lia|];
         exists st'; rewrite Hread; split; [reflexivity|assumption]).
  destruct (read_uint32_next st b0 b1 b2 b3 rest Hok Hpend)
    as (st1 & Hread & Hok1 & Hpend1 & (_ & Herr1 & _) & _).
  rewrite Hread.
  destruct (IH st1 Hok1) as (st' & Hmany & Herr).
  { rewrite Hpend1. cbn [List.length] in Hshort. lia. }
  exists st'. rewrite Hmany. split; [reflexivity|congruence].
Qed.

Lemma read_many_observable input n :
  live_input input ->
  observable (read_many n (initial_state input))
  = decode_prefix n (List.concat input).
Proof.
  intros Hlive. unfold decode_prefix.
  pose proof (initial_state_ok input Hlive) as Hok.
  destruct (4 * n <=? List.length (List.concat input))%nat eqn:Hcmp.
  - apply Nat.leb_le in Hcmp.
    destruct (read_many_next n (initial_state input)
                (firstn (4 * n) (List.concat input))
                (skipn (4 * n) (List.concat input)) Hok)
      as (st' & Hmany & _).
    + rewrite initial_state_pending. symmetry. apply firstn_skipn.
    + rewrite length_firstn. lia.
    + rewrite Hmany. reflexivity.
  - apply Nat.leb_gt in Hcmp.
    destruct (read_many_exhausted n (initial_state input) Hok) as (st' & Hmany & Herr).
    + now rewrite initial_state_pending.
    + rewrite Hmany. cbn [observable]. rewrite Herr. reflexivity.
Qed.

(** Claim C1.  For every input whose byte length is a multiple of 4, in
    whatever pieces standard input delivers it, calling [read_uint32]
    [length / 4] times from process start returns exactly the 4-byte
    little-endian groups of the input, in input order: there are [length / 4]
    values, value [k] is decoded from bytes [4k .. 4k+3], and nothing is left
    unread, so no value is repeated, skipped or made up. *)
Theorem read_many_reproduces_groups input n :
  live_input input ->
  List.length (List.concat input) = (4 * n)%nat ->
  exists st',
    read_many n (initial_state input)
      = Return (le_groups (List.concat input)) st'
    /\ List.length (le_groups (List.concat input)) = n
    /\ (forall k, (k < n)%nat ->
          nth k (le_groups (List.concat input)) 0
          = le32 (nth (4 * k) (List.concat input) x00)
              (nth (4 * k + 1) (List.concat input) x00)
              (nth (4 * k + 2) (List.concat input) x00)
              (nth (4 * k + 3) (List.concat input) x00))
    /\ pending st' = [].
Proof.
  intros Hlive Hlen.
  destruct (read_many_next n (initial_state input) (List.concat input) []
              (initial_state_ok input Hlive))
    as (st' & Hmany & _ & Hpend & _).
  - rewrite initial_state_pending. now rewrite app_nil_r.
  - assumption.
  - exists st'. split; [assumption|]. split; [now apply le_groups_length|].
    split; [|assumption]. intros k Hk. now apply le_groups_nth with n.
Qed.

(** Claim C2.  [read_uint32] assembles the next four input bytes into an
    unsigned 32-bit integer little-endian, the first byte consumed being the
    least significant; the bytes 01 00 00 00 decode to 1 and the bytes
    FF FF FF FF decode to 4294967295. *)
Theorem read_uint32_little_endian :
  (forall st b0 b1 b2 b3 rest,
      reader_ok st -> pending st = b0 :: b1 :: b2 :: b3 :: rest ->
      exists st',
        read_uint32 st
          = Return (byte_to_Z b0 + 2 ^ 8 * byte_to_Z b1
                    + 2 ^ 16 * byte_to_Z b2 + 2 ^ 24 * byte_to_Z b3) st'
        /\ pending st' = rest)
  /\ observable (read_uint32 (initial_state [[x01; x00; x00; x00]])) = inl 1
  /\ observable (read_uint32 (initial_state [[xff; xff; xff; xff]]))
     = inl 4294967295.
Proof.
  split; [|split; vm_compute; reflexivity].
  intros st b0 b1 b2 b3 rest Hok Hpend.
  destruct (read_uint32_next st b0 b1 b2 b3 rest Hok Hpend)
    as (st' & Hread & _ & Hpend' & _).
  exists st'. split; assumption.
Qed.

Lemma read_uint32_little_endian_witness :
  exists st',
    read_uint32 (initial_state [[x78; x56]; [x34; x12; xaa]])
      = Return 305419896 st'
    /\ pending st' = [xaa].
Proof.
  apply (proj1 read_uint32_little_endian
           (initial_state [[x78; x56]; [x34; x12; xaa]]) x78 x56 x34 x12 [xaa]).
  - apply initial_state_ok. repeat constructor; discriminate.
  - reflexivity.
Defined.

Lemma read_many_reproduces_groups_witness :
  exists st',
    read_many 2 (initial_state [[x01; x00; x00]; [x00; xff; xff; xff; xff]])
      = Return [1; 4294967295] st'
    /\ List.length [1; 4294967295] = 2%nat
    /\ (forall k, (k < 2)%nat ->
          nth k [1; 4294967295] 0
          = le32 (nth (4 * k) [x01; x00; x00; x00; xff; xff; xff; xff] x00)
              (nth (4 * k + 1) [x01; x00; x00; x00; xff; xff; xff; xff] x00)
              (nth (4 * k + 2) [x01; x00; x00; x00; xff; xff; xff; xff] x00)
              (nth (4 * k + 3) [x01; x00; x00; x00; xff; xff; xff; xff] x00))
    /\ pending st' = [].
Proof.
  apply (read_many_reproduces_groups
           [[x01; x00; x00]; [x00; xff; xff; xff; xff]] 2).
  - repeat constructor; discriminate.
  - reflexivity.
Defined.

Lemma le_groups_firstn bytes n r :
  List.length bytes = (4 * n + r)%nat -> (r < 4)%nat ->
  le_groups bytes = le_groups (firstn (4 * n) bytes).
Proof.
  intros Hlen Hr.
  rewrite <- (firstn_skipn (4 * n) bytes) at 1.
  rewrite (le_groups_app _ n) by (rewrite length_firstn; lia).
  rewrite (le_groups_short (skipn (4 * n) bytes)) by (rewrite length_skipn; lia).
  apply app_nil_r.
Qed.

(** Claim C3.  For every input whose byte length is not a multiple of 4,
    [length / 4] calls of [read_uint32] succeed with the complete groups, and
    the next call terminates the process with the nonzero status 1 after
    reporting the exhaustion on standard error; it hands no value, partial or
    zero-padded, back to its caller. *)
Theorem truncated_stream_exhausts input :
  live_input input ->
  (List.length (List.concat input) mod 4 <> 0)%nat ->
  exists st',
    read_many (List.length (List.concat input) / 4) (initial_state input)
      = Return (le_groups (List.concat input)) st'
    /\ List.length (le_groups (List.concat input))
       = (List.length (List.concat input) / 4)%nat
    /\ exists st'',
         read_uint32 st' = Exit 1 st''
         /\ 1 <> 0
         /\ stderr st'' = exhausted_msg.
Proof.
  intros Hlive Hmod.
  set (bytes := List.concat input) in *.
  set (n := (List.length bytes / 4)%nat).
  assert (Hlen : List.length bytes = (4 * n + List.length bytes mod 4)%nat)
    by (apply Nat.div_mod_eq).
  assert (Hr : (List.length bytes mod 4 < 4)%nat)
    by (apply Nat.mod_upper_bound; discriminate).
  destruct (read_many_next n (initial_state input)
              (firstn (4 * n) bytes) (skipn (4 * n) bytes)
              (initial_state_ok input Hlive))
    as (st' & Hmany & Hok' & Hpend' & (_ & Herr' & _)).
  - rewrite initial_state_pending. symmetry. apply firstn_skipn.
  - rewrite length_firstn. lia.
  - exists st'. rewrite (le_groups_firstn bytes n _ Hlen Hr).
    split; [assumption|]. split.
    + apply le_groups_length. rewrite length_firstn. lia.
    + destruct (read_uint32_exhausted st' Hok') as (st'' & Hread & Herr'' & _).
      * rewrite Hpend', length_skipn. lia.
      * exists st''. split; [assumption|]. split; [discriminate|].
        rewrite Herr'', Herr'. reflexivity.
Qed.

Lemma truncated_stream_exhausts_witness :
  exists st',
    read_many 1 (initial_state [[x01; x00; x00; x00; xaa; xbb]])
      = Return [1] st'
    /\ List.length [1] = 1%nat
    /\ exists st'',
         read_uint32 st' = Exit 1 st''
         /\ 1 <> 0
         /\ stderr st'' = exhausted_msg.
Proof.
  apply (truncated_stream_exhausts [[x01; x00; x00; x00; xaa; xbb]]).
  - repeat constructor; discriminate.
  - discriminate.
Defined.

(** The two remaining scenarios of the specification: an empty input, and
    six bytes of which the last two cannot make a value. *)
Example empty_input_exhausts :
  observable (read_uint32 (initial_state [])) = inr (1, exhausted_msg).
Proof. reflexivity. Qed.

Example six_bytes_one_value :
  observable (read_many 1 (initial_state [[x01; x00; x00; x00; xaa; xbb]]))
  = inl [1]
  /\ observable (read_many 2 (initial_state [[x01; x00; x00; x00; xaa; xbb]]))
     = inr (1, exhausted_msg).
Proof. split; vm_compute; reflexivity. Qed.

(** Claim C7.  The decoded integers depend only on the logical byte sequence
    of the input, not on the pieces in which [refill_buffer] obtains it: two
    deliveries of the same bytes give the same result of [n] calls of
    [read_uint32], whether that is [n] values or the fatal exit, for every
    [n]. *)
Theorem chunking_unobservable input1 input2 n :
  live_input input1 -> live_input input2 ->
  List.concat input1 = List.concat input2 ->
  observable (read_many n (initial_state input1))
  = observable (read_many n (initial_state input2)).
Proof.
  intros H1 H2 Hsame.
  rewrite !read_many_observable by assumption. now rewrite Hsame.
Qed.

Lemma concat_singletons {A} (l : list A) :
  List.concat (map (fun x => [x]) l) = l.
Proof. induction l as [|x l IH]; [reflexivity|]. cbn. now rewrite IH. Qed.

Lemma singletons_live (l : list byte) : live_input (map (fun b => [b]) l).
Proof.
  apply Forall_forall. intros piece Hin.
  apply in_map_iff in Hin. destruct Hin as (b & <- & _). discriminate.
Qed.

Lemma chunking_unobservable_witness :
  observable (read_many 1025 (initial_state [ramp 4100]))
  = observable
      (read_many 1025 (initial_state (map (fun b => [b]) (ramp 4100)))).
Proof.
  apply chunking_unobservable.
  - constructor; [|constructor].
    intros H. apply (f_equal (@List.length byte)) in H.
    vm_compute in H. discriminate.
  - apply singletons_live.
  - rewrite concat_singletons. cbn [List.concat]. apply app_nil_r.
Defined.

Section Adapter.

Variable name : string.

Lemma call_next a st b0 b1 b2 b3 rest :
  reader_ok st -> pending st = b0 :: b1 :: b2 :: b3 :: rest ->
  exists st',
    call (stdin_gen name) a st = Return (present a (le32 b0 b1 b2 b3)) st'
    /\ reader_ok st' /\ pending st' = rest.
Proof.
  intros Hok Hpend.
  destruct (read_uint32_next st b0 b1 b2 b3 rest Hok Hpend)
    as (st' & Hread & Hok' & Hpend' & _).
  exists st'. split; [|split; assumption].
  destruct a; cbn [call stdin_gen GetBits GetU01 gen_param gen_state present];
    unfold stdin_bits, stdin_u01, bind; rewrite Hread; reflexivity.
Qed.

Lemma run_calls_next calls : forall st bytes rest,
  reader_ok st -> pending st = bytes ++ rest ->
  List.length bytes = (4 * List.length calls)%nat ->
  exists st',
    run_calls (stdin_gen name) calls st
    = Return (present_all calls (le_groups bytes)) st'
    /\ reader_ok st' /\ pending st' = rest.
Proof.
  induction calls as [|a calls IH]; intros st bytes rest Hok Hpend Hlen.
  - destruct bytes; [|discriminate]. exists st. repeat (split; [easy|]). easy.
  - destruct bytes as [|b0 [|b1 [|b2 [|b3 bytes]]]]; try (cbn in Hlen; lia).
    destruct (call_next a st b0 b1 b2 b3 (bytes ++ rest) Hok Hpend)
      as (st1 & Hcall & Hok1 & Hpend1).
    destruct (IH st1 bytes rest Hok1 Hpend1) as (st2 & Hrun & Hok2 & Hpend2).
    { cbn [List.length] in Hlen. lia. }
    exists st2. cbn [run_calls le_groups present_all]. unfold bind.
    rewrite Hcall, Hrun. repeat (split; [easy|]). easy.
Qed.

End Adapter.

Lemma present_all_length calls : forall draws,
  List.length draws = List.length calls ->
  List.length (present_all calls draws) = List.length calls.
Proof.
  induction calls as [|a calls IH]; intros [|v draws] Hlen;
    try discriminate; [reflexivity|].
  cbn [present_all List.length]. f_equal. apply IH. now injection Hlen.
Qed.

Lemma present_all_nth calls : forall draws k,
  List.length draws = List.length calls -> (k < List.length calls)%nat ->
  nth k (present_all calls draws) (Bits 0)
  = present (nth k calls CallBits) (nth k draws 0).
Proof.
  induction calls as [|a calls IH]; intros [|v draws] k Hlen Hk;
    try discriminate; cbn [List.length] in Hk; [lia|].
  destruct k as [|k]; [reflexivity|].
  cbn [present_all nth]. apply IH; [now injection Hlen|lia].
Qed.

(** Claim C4.  [stdin_bits] and [stdin_u01] draw from one shared stream: any
    sequence of [k] calls through the handle made by [create_stdin_gen]
    consumes exactly the first [4k] bytes of the input, call [j] being handed
    the draw decoded from bytes [4j .. 4j+3] and from no others. *)
Theorem accessors_share_one_stream name input calls :
  live_input input ->
  (4 * List.length calls <= List.length (List.concat input))%nat ->
  let bytes := List.concat input in
  let k := List.length calls in
  exists gen results st',
    create_stdin_gen name (initial_state input)
      = Return gen (initial_state input)
    /\ run_calls gen calls (initial_state input) = Return results st'
    /\ List.length results = k
    /\ (forall j, (j < k)%nat ->
          nth j results (Bits 0)
          = present (nth j calls CallBits)
              (le32 (nth (4 * j) bytes x00) (nth (4 * j + 1) bytes x00)
                 (nth (4 * j + 2) bytes x00) (nth (4 * j + 3) bytes x00)))
    /\ pending st' = skipn (4 * k) bytes.
Proof.
  intros Hlive Hlen bytes k.
  destruct (run_calls_next name calls (initial_state input)
              (firstn (4 * k) bytes) (skipn (4 * k) bytes)
              (initial_state_ok input Hlive))
    as (st' & Hrun & _ & Hpend).
  - rewrite initial_state_pending. symmetry. apply firstn_skipn.
  - rewrite length_firstn. unfold k, bytes. lia.
  - assert (Hfirst : List.length (firstn (4 * k) bytes) = (4 * k)%nat)
      by (rewrite length_firstn; unfold k, bytes; lia).
    pose proof (le_groups_length _ _ Hfirst) as Hgroups.
    eexists. eexists. exists st'.
    split; [reflexivity|]. split; [exact Hrun|].
    split; [now apply present_all_length|]. split; [|assumption].
    intros j Hj. rewrite present_all_nth by assumption. f_equal.
    rewrite (le_groups_nth _ k) by assumption.
    rewrite !nth_firstn.
    repeat match goal with
           | |- context [(?a <? ?b)%nat] =>
               replace (a <? b)%nat with true by (symmetry; apply Nat.ltb_lt; lia)
           end.
    reflexivity.
Qed.

Lemma accessors_share_one_stream_witness :
  exists gen results st',
    create_stdin_gen "Rust RNG"
      (initial_state [[x01; x00; x00]; [x00; xff; xff; xff; xff; x07]])
      = Return gen
          (initial_state [[x01; x00; x00]; [x00; xff; xff; xff; xff; x07]])
    /\ run_calls gen [CallU01; CallBits]
         (initial_state [[x01; x00; x00]; [x00; xff; xff; xff; xff; x07]])
       = Return results st'
    /\ List.length results = 2%nat
    /\ (forall j, (j < 2)%nat ->
          nth j results (Bits 0)
          = present (nth j [CallU01; CallBits] CallBits)
              (le32
                 (nth (4 * j) [x01; x00; x00; x00; xff; xff; xff; xff; x07] x00)
                 (nth (4 * j + 1) [x01; x00; x00; x00; xff; xff; xff; xff; x07] x00)
                 (nth (4 * j + 2) [x01; x00; x00; x00; xff; xff; xff; xff; x07] x00)
                 (nth (4 * j + 3) [x01; x00; x00; x00; xff; xff; xff; xff; x07] x00)))
    /\ pending st' = [x07].
Proof.
  apply (accessors_share_one_stream "Rust RNG"
           [[x01; x00; x00]; [x00; xff; xff; xff; xff; x07]]
           [CallU01; CallBits]).
  - repeat constructor; discriminate.
  - cbn. lia.
Defined.

(** ** The cursor invariant *)

Lemma invariant_sane st :
  buffer_invariant st /\ 0 <= buffer_pos st -> cursor_sane st.
Proof. unfold buffer_invariant, cursor_sane. lia. Qed.

Lemma fread_short n input :
  (List.length (fst (fread n input)) <= Z.to_nat n)%nat.
Proof.
  unfold fread. destruct input as [|piece later]; [cbn; lia|].
  destruct (skipn (Z.to_nat n) piece); cbn [fst]; apply firstn_le_length.
Qed.

Lemma refill_invariant st :
  buffer_invariant (final_state (refill_buffer st))
  /\ 0 <= buffer_pos (final_state (refill_buffer st)).
Proof.
  unfold refill_buffer. pose proof (fread_short BUFFER_SIZE (stdin st)) as Hshort.
  destruct (fread BUFFER_SIZE (stdin st)) as [got input'].
  cbn [fst] in Hshort. cbn. unfold buffer_invariant, BUFFER_SIZE in *. cbn. lia.
Qed.

Lemma body_invariant i value st :
  cursor_sane st ->
  buffer_invariant (final_state (read_uint32_body i value st))
  /\ 0 <= buffer_pos (final_state (read_uint32_body i value st)).
Proof.
  intros [Hpos Hlen]. unfold read_uint32_body, bind.
  destruct (buffer_pos st >=? buffer_len st) eqn:Hcmp.
  - unfold refill_buffer.
    pose proof (fread_short BUFFER_SIZE (stdin st)) as Hshort.
    destruct (fread BUFFER_SIZE (stdin st)) as [got input'].
    cbn [fst] in Hshort.
    destruct (0 <? Z.of_nat (List.length got)) eqn:Hgot; cbn.
    + apply Z.ltb_lt in Hgot.
      unfold buffer_invariant, size_t, BUFFER_SIZE in *. cbn.
      change ((0 + 1) mod 2 ^ 64) with 1. lia.
    + apply Z.ltb_ge in Hgot.
      unfold buffer_invariant, BUFFER_SIZE in *. cbn. lia.
  - rewrite Z.geb_leb in Hcmp. apply Z.leb_gt in Hcmp. cbn.
    unfold buffer_invariant, BUFFER_SIZE in *. cbn.
    rewrite size_t_small by (unfold BUFFER_SIZE; lia). lia.
Qed.

Lemma loop_invariant remaining : forall i value st,
  cursor_sane st -> remaining <> 0%nat ->
  buffer_invariant (final_state (read_uint32_loop remaining i value st))
  /\ 0 <= buffer_pos (final_state (read_uint32_loop remaining i value st)).
Proof.
  induction remaining as [|remaining IH]; intros i value st Hsane Hpos;
    [now elim Hpos|].
  cbn [read_uint32_loop]. unfold bind.
  pose proof (body_invariant i value st Hsane) as Hbody.
  destruct (read_uint32_body i value st) as [value' st1|status st1];
    cbn [final_state] in *; [|assumption].
  destruct remaining as [|remaining]; [exact Hbody|].
  apply IH; [now apply invariant_sane|discriminate].
Qed.

Lemma step_invariant st st' :
  cursor_sane st -> reader_step st st' ->
  buffer_invariant st' /\ 0 <= buffer_pos st'.
Proof.
  intros Hsane Hstep. destruct Hstep.
  - apply refill_invariant.
  - now apply body_invariant.
  - apply loop_invariant; [assumption|discriminate].
Qed.

Lemma reached_invariant st0 st :
  cursor_sane st0 -> reached_from st0 st ->
  buffer_invariant st /\ 0 <= buffer_pos st.
Proof.
  intros Hsane Hreach. unfold reached_from in Hreach.
  induction Hreach as [st0 st1 Hstep|st0 st1 st2 Hstep _ IH].
  - now apply step_invariant with st0.
  - apply IH. apply invariant_sane. now apply step_invariant with st0.
Qed.

Lemma initial_state_sane input : cursor_sane (initial_state input).
Proof. unfold cursor_sane. cbn. unfold BUFFER_SIZE. lia. Qed.

(** Claim C6 as stated fails at process start: the cursor is at 4096 while the
    fill length is 0, so [buffer_pos <= buffer_len] does not hold in the
    initial state. *)
Lemma initial_state_breaks_invariant :
  buffer_pos (initial_state []) = 4096
  /\ buffer_len (initial_state []) = 0
  /\ ~ buffer_invariant (initial_state []).
Proof.
  split; [reflexivity|]. split; [reflexivity|].
  unfold buffer_invariant. cbn. unfold BUFFER_SIZE. lia.
Qed.

(** Claim C6, amended.  The fill length of the initial state is within the
    capacity, and in every state the reader reaches after at least one
    operation (a refill, a loop iteration or a whole [read_uint32], returning
    or terminating) the invariant [buffer_pos <= buffer_len <= BUFFER_SIZE]
    holds. *)
Theorem buffer_invariant_after_first_step input st :
  reached_from (initial_state input) st ->
  buffer_len (initial_state input) <= BUFFER_SIZE
  /\ buffer_invariant st.
Proof.
  intros Hreach. split.
  - apply initial_state_sane.
  - now apply (reached_invariant (initial_state input)); [apply initial_state_sane|].
Qed.

Lemma buffer_invariant_after_first_step_witness :
  buffer_len (initial_state [[x01; x00]]) <= BUFFER_SIZE
  /\ buffer_invariant
       (final_state (read_uint32_body 0 0 (initial_state [[x01; x00]]))).
Proof.
  apply (buffer_invariant_after_first_step [[x01; x00]]).
  apply t1n_step. apply step_body.
Defined.

(** ** The unit-interval accessor *)

Lemma digits2_pos_bounds p :
  2 ^ (Z.pos (digits2_pos p) - 1) <= Z.pos p < 2 ^ Z.pos (digits2_pos p).
Proof.
  induction p as [p IH|p IH|]; cbn [digits2_pos].
  - rewrite Pos2Z.inj_succ.
    replace (Z.succ (Z.pos (digits2_pos p)) - 1)
      with (Z.succ (Z.pos (digits2_pos p) - 1)) by lia.
    rewrite !Z.pow_succ_r by lia. lia.
  - rewrite Pos2Z.inj_succ.
    replace (Z.succ (Z.pos (digits2_pos p)) - 1)
      with (Z.succ (Z.pos (digits2_pos p) - 1)) by lia.
    rewrite !Z.pow_succ_r by lia. lia.
  - cbn. lia.
Qed.

Lemma digits2_pos_le p n :
  0 <= n -> Z.pos p < 2 ^ n -> Z.pos (digits2_pos p) <= n.
Proof.
  intros Hn Hp. pose proof (digits2_pos_bounds p) as [Hlow _].
  destruct (Z_le_gt_dec (Z.pos (digits2_pos p)) n) as [|Hgt]; [assumption|].
  exfalso.
  assert (2 ^ n <= 2 ^ (Z.pos (digits2_pos p) - 1))
    by (apply Z.pow_le_mono_r; lia).
  lia.
Qed.

Lemma digits2_pos_shift p k :
  digits2_pos (Pos.iter xO p k) = (digits2_pos p + k)%positive.
Proof.
  induction k as [|k IH] using Pos.peano_ind.
  - cbn. now rewrite Pos.add_1_r.
  - rewrite Pos.iter_succ. cbn [digits2_pos]. rewrite IH.
    now rewrite Pos.add_succ_r.
Qed.

Lemma pos_shift_value p k :
  Z.pos (Pos.iter xO p k) = Z.pos p * 2 ^ Z.pos k.
Proof.
  induction k as [|k IH] using Pos.peano_ind.
  - cbn. lia.
  - rewrite Pos.iter_succ, Pos2Z.inj_succ.
    rewrite Z.pow_succ_r by lia. lia.
Qed.

Lemma binary_round_aux_canonical s m e :
  Z.pos (digits2_pos m) = 53 -> -1074 <= e <= 971 ->
  binary_round_aux double_prec double_emax s (Z.pos m) e loc_Exact
  = S754_finite s m e.
Proof.
  intros Hd He.
  unfold binary_round_aux, shr_fexp, fexp, emin, Zdigits2, double_prec,
    double_emax.
  cbn [shr_record_of_loc]. rewrite Hd.
  replace (Z.max (53 + e - 53) (3 - 1024 - 53) - e) with 0 by lia.
  cbn [shr shr_m loc_of_shr_record round_nearest_even shr_record_of_loc].
  rewrite Hd.
  replace (Z.max (53 + e - 53) (3 - 1024 - 53) - e) with 0 by lia.
  cbn [shr shr_m].
  replace (e <=? 1024 - 53) with true by (symmetry; apply Z.leb_le; lia).
  reflexivity.
Qed.

Lemma double_of_uint32_pos p :
  Z.pos p < 2 ^ 32 ->
  double_of_uint32 (Z.pos p)
  = S754_finite false (Pos.iter xO p (53 - digits2_pos p))
      (Z.pos (digits2_pos p) - 53).
Proof.
  intros Hp.
  pose proof (digits2_pos_le p 32 ltac:(lia) Hp) as Hd.
  unfold double_of_uint32, binary_normalize, binary_round, shl_align, fexp,
    emin, double_prec, double_emax.
  replace (Z.max (Z.pos (digits2_pos p) + 0 - 53) (3 - 1024 - 53))
    with (Z.pos (digits2_pos p) - 53) by lia.
  replace (Z.pos (digits2_pos p) - 53 - 0)
    with (Z.neg (53 - digits2_pos p)) by lia.
  apply binary_round_aux_canonical; [|lia].
  rewrite digits2_pos_shift. lia.
Qed.

Lemma div_eucl_shifted m :
  Z.div_eucl (Z.shiftl (Z.pos m) 53) 4503599627370496 = (Z.pos m~0, 0).
Proof.
  rewrite (surjective_pairing (Z.div_eucl _ _)).
  change (fst (Z.div_eucl ?a ?b)) with (a / b).
  change (snd (Z.div_eucl ?a ?b)) with (a mod b).
  rewrite Z.shiftl_mul_pow2 by lia.
  replace (Z.pos m * 2 ^ 53) with (Z.pos m~0 * 4503599627370496) by lia.
  rewrite Z.div_mul by lia. rewrite Z.mod_mul by lia. reflexivity.
Qed.

Lemma double_div_two32 m e :
  Z.pos (digits2_pos m) = 53 -> -1000 <= e <= 900 ->
  double_div (S754_finite false m e) lit_4294967296
  = S754_finite false m (e - 32).
Proof.
  intros Hd He.
  change lit_4294967296 with (S754_finite false 4503599627370496 (-20)).
  unfold double_div, SFdiv, SFdiv_core_binary.
  cbv zeta. unfold Zdigits2. rewrite Hd.
  change (Z.pos (digits2_pos 4503599627370496)) with 53.
  unfold fexp, emin, double_prec, double_emax. std_Z.
  replace (Z.min (Z.max (53 + e - (53 + -20) - 53) (3 - 1024 - 53)) (e - -20))
    with (e - 33) by lia.
  replace (e - -20 - (e - 33)) with 53 by lia.
  rewrite div_eucl_shifted.
  change (new_location 4503599627370496 0) with loc_Exact.
  cbn [xorb].
  unfold binary_round_aux, shr_fexp, fexp, emin, Zdigits2.
  cbn [digits2_pos shr_record_of_loc]. rewrite Pos2Z.inj_succ, Hd. std_Z.
  replace (Z.max (Z.succ 53 + (e - 33) - 53) (3 - 1024 - 53) - (e - 33))
    with 1 by lia.
  cbn [shr SpecFloat.iter_pos shr_1 shr_m loc_of_shr_record round_nearest_even
       shr_record_of_loc orb].
  rewrite Hd. std_Z.
  replace (Z.max (53 + (e - 33 + 1) - 53) (3 - 1024 - 53) - (e - 33 + 1))
    with 0 by lia.
  cbn [shr shr_m].
  replace (e - 33 + 1 <=? 1024 - 53) with true
    by (symmetry; apply Z.leb_le; lia).
  f_equal. lia.
Qed.

Lemma body_returns i value st v st' :
  read_uint32_body i value st = Return v st' ->
  exists b, v = Z.lor value (uint32 (Z.shiftl (byte_to_Z b) (i * 8))).
Proof.
  unfold read_uint32_body, bind.
  destruct (buffer_pos st >=? buffer_len st).
  - unfold refill_buffer. destruct (fread BUFFER_SIZE (stdin st)) as [got input'].
    destruct (0 <? Z.of_nat (List.length got)); cbn; intros H; [|discriminate].
    injection H as <- _. eexists; reflexivity.
  - cbn. intros H. injection H as <- _. eexists; reflexivity.
Qed.

Lemma loop_returns remaining : forall i value st v st',
  read_uint32_loop remaining i value st = Return v st' ->
  exists bytes, List.length bytes = remaining /\ v = assemble i value bytes.
Proof.
  induction remaining as [|remaining IH]; intros i value st v st' H.
  - cbn in H. injection H as <- _. now exists [].
  - cbn [read_uint32_loop] in H. unfold bind in H.
    destruct (read_uint32_body i value st) as [value' st1|] eqn:Hbody;
      [|discriminate].
    destruct (body_returns _ _ _ _ _ Hbody) as (b & ->).
    destruct (IH _ _ _ _ _ H) as (bytes & Hlen & ->).
    exists (b :: bytes). split; [cbn; now f_equal|reflexivity].
Qed.

Lemma read_uint32_range st v st' :
  read_uint32 st = Return v st' -> 0 <= v < 2 ^ 32.
Proof.
  intros H. destruct (loop_returns 4 0 0 st v st' H) as (bytes & Hlen & ->).
  destruct bytes as [|b0 [|b1 [|b2 [|b3 [|]]]]]; try discriminate.
  rewrite assemble_le32. apply le32_range.
Qed.

Lemma u01_of_draw v :
  0 <= v < 2 ^ 32 ->
  double_exact (double_div (double_of_uint32 v) lit_4294967296)
    (Qmake v (2 ^ 32))
  /\ double_le double_zero
       (double_div (double_of_uint32 v) lit_4294967296) = true
  /\ double_lt (double_div (double_of_uint32 v) lit_4294967296)
       double_one = true.
Proof.
  intros Hv. destruct v as [|p|p]; [| |lia].
  - repeat split.
  - pose proof (digits2_pos_le p 32 ltac:(lia) ltac:(lia)) as Hd.
    rewrite double_of_uint32_pos by lia.
    rewrite double_div_two32 by (rewrite ?digits2_pos_shift; lia).
    replace (Z.pos (digits2_pos p) - 53 - 32)
      with (Z.neg (85 - digits2_pos p)) by lia.
    split; [|split].
    + cbn [double_exact]. unfold Qeq. cbn [Qnum Qden].
      rewrite pos_shift_value, !Pos2Z.inj_pow.
      replace (Z.pos (85 - digits2_pos p))
        with (Z.pos (53 - digits2_pos p) + 32) by lia.
      rewrite Z.pow_add_r by lia. lia.
    + reflexivity.
    + change double_one with (S754_finite false 4503599627370496 (-52)).
      unfold double_lt, SFltb, SFcompare.
      replace (Z.neg (85 - digits2_pos p) ?= -52) with Lt
        by (symmetry; apply Z.compare_lt_iff; lia).
      reflexivity.
Qed.

(** Claim C5.  Every value [stdin_u01] returns is the [double] quotient of a
    32-bit draw [v] by 2^32; that quotient is exactly the rational [v / 2^32],
    is at least [0.0] and is strictly below [1.0].  The draw 0 gives [+0.0]
    and the draw 0xFFFFFFFF gives a value strictly below [1.0]. *)
Theorem stdin_u01_unit_interval :
  (forall param st_ptr st x st',
      stdin_u01 param st_ptr st = Return x st' ->
      exists v,
        read_uint32 st = Return v st'
        /\ 0 <= v < 2 ^ 32
        /\ x = double_div (double_of_uint32 v) lit_4294967296
        /\ double_exact x (Qmake v (2 ^ 32))
        /\ double_le double_zero x = true
        /\ double_lt x double_one = true)
  /\ double_div (double_of_uint32 0) lit_4294967296 = double_zero
  /\ double_lt (double_div (double_of_uint32 4294967295) lit_4294967296)
       double_one = true.
Proof.
  split; [|split; reflexivity].
  intros param st_ptr st x st' H. unfold stdin_u01, bind in H.
  destruct (read_uint32 st) as [v st1|] eqn:Hread; [|discriminate].
  cbn in H. injection H as <- <-.
  pose proof (read_uint32_range _ _ _ Hread) as Hv.
  exists v. split; [reflexivity|]. split; [assumption|].
  split; [reflexivity|]. now apply u01_of_draw.
Qed.

Lemma stdin_u01_unit_interval_witness :
  exists v,
    read_uint32 (initial_state [[xff; xff; xff; xff]])
    = Return v
        (final_state (stdin_u01 NULL NULL (initial_state [[xff; xff; xff; xff]])))
    /\ 0 <= v < 2 ^ 32
    /\ S754_finite false 9007199252643840 (-53)
       = double_div (double_of_uint32 v) lit_4294967296
    /\ double_exact (S754_finite false 9007199252643840 (-53))
         (Qmake v (2 ^ 32))
    /\ double_le double_zero (S754_finite false 9007199252643840 (-53)) = true
    /\ double_lt (S754_finite false 9007199252643840 (-53)) double_one = true.
Proof.
  apply (proj1 stdin_u01_unit_interval NULL NULL
           (initial_state [[xff; xff; xff; xff]])).
  vm_compute. reflexivity.
Defined.

(** ** The command line *)

Lemma is_flag_eq a s l : is_flag a s l = true -> a = s \/ a = l.
Proof.
  unfold is_flag, strcmp. intros H. apply orb_true_iff in H.
  destruct H as [H|H]; [left|right];
    apply String.compare_eq_iff;
    match type of H with
    | context [String.compare ?x ?y] => destruct (String.compare x y)
    end; try reflexivity; discriminate.
Qed.

Lemma help_flag_only h :
  is_flag h "-h" "--help" = true ->
  is_flag h "-s" "--small" = false /\ is_flag h "-m" "--medium" = false
  /\ is_flag h "-b" "--big" = false /\ is_flag h "-n" "--name" = false.
Proof.
  intros H. destruct (is_flag_eq _ _ _ H) as [->| ->]; repeat split; reflexivity.
Qed.

Lemma name_flag_only f :
  is_flag f "-n" "--name" = true ->
  is_flag f "-s" "--small" = false /\ is_flag f "-m" "--medium" = false
  /\ is_flag f "-b" "--big" = false.
Proof.
  intros H. destruct (is_flag_eq _ _ _ H) as [->| ->]; repeat split; reflexivity.
Qed.

Lemma battery_flag_not_name a :
  is_flag a "-s" "--small" = true \/ is_flag a "-m" "--medium" = true
  \/ is_flag a "-b" "--big" = true ->
  is_flag a "-n" "--name" = false.
Proof.
  intros [H|[H|H]]; destruct (is_flag_eq _ _ _ H) as [->| ->]; reflexivity.
Qed.

Lemma skipn_all_nil {A} (l : list A) n :
  (List.length l <= n)%nat -> skipn n l = [].
Proof. intros H. now apply skipn_all2. Qed.

Lemma main_loop_scan fuel : forall argv i name test_type st,
  (List.length argv - i <= fuel)%nat ->
  main_loop fuel argv i name test_type st
  = scan (nth 0 argv EmptyString) (skipn i argv) name test_type st.
Proof.
  induction fuel as [|fuel IH]; intros argv i name test_type st Hfuel.
  - rewrite skipn_all_nil by lia. reflexivity.
  - cbn [main_loop].
    destruct (i <? List.length argv)%nat eqn:Hi.
    + apply Nat.ltb_lt in Hi.
      rewrite (skipn_nth_cons EmptyString argv i Hi). cbn [scan].
      replace (i + 1)%nat with (S i) by lia.
      destruct (is_flag (nth i argv EmptyString) "-s" "--small");
        [apply IH; lia|].
      destruct (is_flag (nth i argv EmptyString) "-m" "--medium");
        [apply IH; lia|].
      destruct (is_flag (nth i argv EmptyString) "-b" "--big");
        [apply IH; lia|].
      destruct (is_flag (nth i argv EmptyString) "-n" "--name").
      * destruct (S i <? List.length argv)%nat eqn:Hi1.
        -- apply Nat.ltb_lt in Hi1.
           rewrite (skipn_nth_cons EmptyString argv (S i) Hi1).
           replace (S i + 1)%nat with (S (S i)) by lia. apply IH. lia.
        -- apply Nat.ltb_ge in Hi1.
           rewrite (skipn_all_nil argv (S i)) by lia.
           rewrite IH by lia. now rewrite skipn_all_nil by lia.
      * destruct (is_flag (nth i argv EmptyString) "-h" "--help");
          [reflexivity|apply IH; lia].
    + apply Nat.ltb_ge in Hi. rewrite skipn_all_nil by lia. reflexivity.
Qed.

Lemma main_loop_fuel fuel argv i name test_type st :
  (List.length argv - i <= fuel)%nat ->
  main_loop fuel argv i name test_type st
  = main_loop (List.length argv - i) argv i name test_type st.
Proof. intros H. rewrite !main_loop_scan by lia. reflexivity. Qed.

Lemma scan_cases argv0 args : forall name test_type st,
  (exists name' test_type',
      scan argv0 args name test_type st
      = Return (Selected name' test_type') st)
  \/ scan argv0 args name test_type st
     = Return (Returned 0) (help_shown argv0 st).
Proof.
  induction args as [args IH] using (induction_ltof1 _ (@List.length string)).
  unfold ltof in IH. intros name test_type st.
  destruct args as [|arg args]; [left; now exists name, test_type|].
  cbn [scan].
  destruct (is_flag arg "-s" "--small"); [apply IH; cbn; lia|].
  destruct (is_flag arg "-m" "--medium"); [apply IH; cbn; lia|].
  destruct (is_flag arg "-b" "--big"); [apply IH; cbn; lia|].
  destruct (is_flag arg "-n" "--name").
  - destruct args as [|value args]; apply IH; cbn; lia.
  - destruct (is_flag arg "-h" "--help"); [right; reflexivity|apply IH; cbn; lia].
Qed.

Lemma scan_app argv0 pre : forall rest name test_type st,
  awaits_value pre = false ->
  scan argv0 (pre ++ rest) name test_type st
  = match scan argv0 pre name test_type st with
    | Return (Selected name' test_type') st' =>
        scan argv0 rest name' test_type' st'
    | o => o
    end.
Proof.
  induction pre as [pre IH] using (induction_ltof1 _ (@List.length string)).
  unfold ltof in IH. intros rest name test_type st Hclosed.
  destruct pre as [|arg pre]; [reflexivity|].
  cbn [awaits_value] in Hclosed. cbn [app scan].
  destruct (is_flag arg "-s" "--small") eqn:Hs.
  { rewrite (battery_flag_not_name arg) in Hclosed by tauto.
    apply IH; [cbn; lia|assumption]. }
  destruct (is_flag arg "-m" "--medium") eqn:Hm.
  { rewrite (battery_flag_not_name arg) in Hclosed by tauto.
    apply IH; [cbn; lia|assumption]. }
  destruct (is_flag arg "-b" "--big") eqn:Hb.
  { rewrite (battery_flag_not_name arg) in Hclosed by tauto.
    apply IH; [cbn; lia|assumption]. }
  destruct (is_flag arg "-n" "--name").
  - destruct pre as [|value pre]; [discriminate|].
    cbn [app]. apply IH; [cbn; lia|assumption].
  - destruct (is_flag arg "-h" "--help"); [reflexivity|].
    apply IH; [cbn; lia|assumption].
Qed.

Section MainProofs.

Variables bS bC bB : unif01_Gen -> M unit.

Lemma main_scan argv0 args st :
  main bS bC bB (argv0 :: args) st
  = match scan argv0 args "Rust RNG" 2 st with
    | Return (Returned status) st' => Return status st'
    | Return (Selected name test_type) st' =>
        dispatch bS bC bB name test_type st'
    | Exit status st' => Exit status st'
    end.
Proof.
  unfold main, bind. rewrite main_loop_scan by (cbn; lia).
  cbn [nth skipn].
  destruct (scan argv0 args "Rust RNG" 2 st) as [[name test_type|status] st'|status st'];
    reflexivity.
Qed.

Lemma scan_help argv0 pre h post name test_type st :
  is_flag h "-h" "--help" = true -> awaits_value pre = false ->
  scan argv0 (pre ++ h :: post) name test_type st
  = Return (Returned 0) (help_shown argv0 st).
Proof.
  intros Hh Hclosed. rewrite scan_app by assumption.
  destruct (scan_cases argv0 pre name test_type st) as [(n & t & ->)| ->];
    [|reflexivity].
  destruct (help_flag_only h Hh) as (Hs & Hm & Hb & Hn).
  cbn [scan]. now rewrite Hs, Hm, Hb, Hn, Hh.
Qed.

Lemma scan_trailing_name argv0 pre f name test_type st :
  is_flag f "-n" "--name" = true -> awaits_value pre = false ->
  scan argv0 (pre ++ [f]) name test_type st
  = scan argv0 pre name test_type st.
Proof.
  intros Hf Hclosed. rewrite scan_app by assumption.
  destruct (scan_cases argv0 pre name test_type st) as [(n & t & ->)| ->];
    [|reflexivity].
  destruct (name_flag_only f Hf) as (Hs & Hm & Hb).
  cbn [scan]. now rewrite Hs, Hm, Hb, Hf.
Qed.

Lemma scan_unknown argv0 pre x post name test_type st :
  unknown_arg x -> awaits_value pre = false ->
  scan argv0 (pre ++ x :: post) name test_type st
  = scan argv0 (pre ++ post) name test_type st.
Proof.
  intros (Hs & Hm & Hb & Hn & Hh) Hclosed. rewrite !scan_app by assumption.
  destruct (scan_cases argv0 pre name test_type st) as [(n & t & ->)| ->];
    [|reflexivity].
  cbn [scan]. now rewrite Hs, Hm, Hb, Hn, Hh.
Qed.

(** Whatever precedes it, a final [-n]/[--name] never changes the battery:
    either it changes nothing at all, or it is itself the value of the
    [-n]/[--name] just before it and becomes the name. *)
Lemma scan_final_name argv0 pre : forall f name test_type st,
  is_flag f "-n" "--name" = true ->
  scan argv0 (pre ++ [f]) name test_type st
  = scan argv0 pre name test_type st
  \/ exists name' test_type',
       scan argv0 pre name test_type st
       = Return (Selected name' test_type') st
       /\ scan argv0 (pre ++ [f]) name test_type st
          = Return (Selected f test_type') st.
Proof.
  induction pre as [pre IH] using (induction_ltof1 _ (@List.length string)).
  unfold ltof in IH. intros f name test_type st Hf.
  destruct (name_flag_only f Hf) as (Hs & Hm & Hb).
  destruct pre as [|arg pre].
  - left. cbn [app scan]. now rewrite Hs, Hm, Hb, Hf.
  - cbn [app scan].
    destruct (is_flag arg "-s" "--small"); [apply IH; [cbn; lia|assumption]|].
    destruct (is_flag arg "-m" "--medium"); [apply IH; [cbn; lia|assumption]|].
    destruct (is_flag arg "-b" "--big"); [apply IH; [cbn; lia|assumption]|].
    destruct (is_flag arg "-n" "--name").
    + destruct pre as [|value pre].
      * right. exists name, test_type. split; reflexivity.
      * cbn [app]. apply IH; [cbn; lia|assumption].
    + destruct (is_flag arg "-h" "--help"); [now left|].
      apply IH; [cbn; lia|assumption].
Qed.

(** The case the trailing-flag property leaves out: when the arguments before
    it end in an examined [-n]/[--name] that still awaits its value, a final
    argument is that value and becomes the name, the battery staying as it
    is. *)
Lemma scan_name_value argv0 pre : forall f name test_type name' test_type' st,
  awaits_value pre = true ->
  scan argv0 pre name test_type st = Return (Selected name' test_type') st ->
  scan argv0 (pre ++ [f]) name test_type st
  = Return (Selected f test_type') st.
Proof.
  induction pre as [pre IH] using (induction_ltof1 _ (@List.length string)).
  unfold ltof in IH. intros f name test_type name' test_type' st Hopen Hscan.
  destruct pre as [|arg pre]; [discriminate|].
  cbn [awaits_value] in Hopen. cbn [app scan] in Hscan |- *.
  destruct (is_flag arg "-s" "--small") eqn:Hs.
  { rewrite (battery_flag_not_name arg) in Hopen by tauto.
    apply IH with name'; [cbn; lia|assumption|assumption]. }
  destruct (is_flag arg "-m" "--medium") eqn:Hm.
  { rewrite (battery_flag_not_name arg) in Hopen by tauto.
    apply IH with name'; [cbn; lia|assumption|assumption]. }
  destruct (is_flag arg "-b" "--big") eqn:Hb.
  { rewrite (battery_flag_not_name arg) in Hopen by tauto.
    apply IH with name'; [cbn; lia|assumption|assumption]. }
  destruct (is_flag arg "-n" "--name").
  - destruct pre as [|value pre].
    + cbn [scan] in Hscan. unfold ret in Hscan.
      injection Hscan as _ <-. reflexivity.
    + cbn [app]. apply IH with name'; [cbn; lia|assumption|assumption].
  - destruct (is_flag arg "-h" "--help"); [discriminate|].
    apply IH with name'; [cbn; lia|assumption|assumption].
Qed.

Lemma scan_selected argv0 args : forall name test_type st,
  (forall a, In a (examined args) -> is_flag a "-h" "--help" = false) ->
  exists name',
    scan argv0 args name test_type st
    = Return (Selected name' (last_battery (examined args) test_type)) st.
Proof.
  induction args as [args IH] using (induction_ltof1 _ (@List.length string)).
  unfold ltof in IH. intros name test_type st Hhelp.
  destruct args as [|arg args]; [now exists name|].
  cbn [scan examined]. unfold last_battery. cbn [fold_left].
  fold (last_battery (if is_flag arg "-n" "--name"
                      then match args with
                           | [] => []
                           | _ :: args'' => examined args''
                           end
                      else examined args)).
  assert (Hhead : is_flag arg "-h" "--help" = false)
    by (apply Hhelp; cbn [examined]; now left).
  assert (Hrest : forall a,
             In a (if is_flag arg "-n" "--name"
                   then match args with
                        | [] => []
                        | _ :: args'' => examined args''
                        end
                   else examined args) ->
             is_flag a "-h" "--help" = false)
    by (intros a Ha; apply Hhelp; cbn [examined]; now right).
  destruct (is_flag arg "-s" "--small") eqn:Hs.
  { rewrite (battery_flag_not_name arg) in * by tauto.
    apply IH; [cbn; lia|assumption]. }
  destruct (is_flag arg "-m" "--medium") eqn:Hm.
  { rewrite (battery_flag_not_name arg) in * by tauto.
    apply IH; [cbn; lia|assumption]. }
  destruct (is_flag arg "-b" "--big") eqn:Hb.
  { rewrite (battery_flag_not_name arg) in * by tauto.
    apply IH; [cbn; lia|assumption]. }
  destruct (is_flag arg "-n" "--name").
  - destruct args as [|value args]; [now exists name|].
    apply IH; [cbn; lia|assumption].
  - rewrite Hhead. apply IH; [cbn; lia|assumption].
Qed.

End MainProofs.

(** Claim C8 as stated fails: on the command line [-n -h] the argument [-h]
    is the value of [-n], so the program prints no usage text, runs BigCrush
    on a generator named [-h] and reads standard input. *)
Lemma help_after_name_runs_battery :
  In "-h"%string (tl ["bigcrush_wrapper"; "-n"; "-h"]%string)
  /\ main one_draw_battery one_draw_battery one_draw_battery
       ["bigcrush_wrapper"; "-n"; "-h"]%string
       (initial_state [[x01; x00; x00; x00]])
     <> Return 0
          (help_shown "bigcrush_wrapper" (initial_state [[x01; x00; x00; x00]]))
  /\ stdout
       (final_state
          (main one_draw_battery one_draw_battery one_draw_battery
             ["bigcrush_wrapper"; "-n"; "-h"]%string
             (initial_state [[x01; x00; x00; x00]])))
     = ("Running BigCrush on '-h'..." ++ LF)%string
  /\ stdin_reads
       (final_state
          (main one_draw_battery one_draw_battery one_draw_battery
             ["bigcrush_wrapper"; "-n"; "-h"]%string
             (initial_state [[x01; x00; x00; x00]])))
     = 1%nat.
Proof.
  split; [cbn; tauto|]. split; [|split; vm_compute; reflexivity].
  intros H. apply (f_equal (fun o => stdin_reads (final_state o))) in H.
  vm_compute in H. discriminate.
Qed.

(** Claim C8, amended.  When [-h] or [--help] occurs on the command line
    other than as the value of a [-n]/[--name] ([awaits_value] is false of
    the arguments before it), [main] prints the usage text, returns status 0,
    issues no [fread], leaves standard input untouched and calls no
    battery. *)
Theorem help_prints_usage_only bS bC bB argv0 pre h post st :
  is_flag h "-h" "--help" = true ->
  awaits_value pre = false ->
  main bS bC bB (argv0 :: pre ++ h :: post) st
  = Return 0 (help_shown argv0 st)
  /\ exit_status (main bS bC bB (argv0 :: pre ++ h :: post) st) = 0
  /\ stdout (help_shown argv0 st) = (stdout st ++ usage argv0)%string
  /\ stdin_reads (help_shown argv0 st) = stdin_reads st
  /\ stdin (help_shown argv0 st) = stdin st.
Proof.
  intros Hh Hclosed.
  assert (Hmain : main bS bC bB (argv0 :: pre ++ h :: post) st
                  = Return 0 (help_shown argv0 st)).
  { rewrite main_scan, (scan_help argv0 pre h post) by assumption.
    reflexivity. }
  rewrite Hmain. repeat split.
Qed.

Lemma help_prints_usage_only_witness :
  main one_draw_battery one_draw_battery one_draw_battery
    ("bigcrush_wrapper" :: ["-s"; "-n"; "x"] ++ "--help" :: ["-m"])%string
    (initial_state [[x01; x00; x00; x00]])
  = Return 0
      (help_shown "bigcrush_wrapper" (initial_state [[x01; x00; x00; x00]]))
  /\ exit_status
       (main one_draw_battery one_draw_battery one_draw_battery
          ("bigcrush_wrapper" :: ["-s"; "-n"; "x"] ++ "--help" :: ["-m"])%string
          (initial_state [[x01; x00; x00; x00]])) = 0
  /\ stdout
       (help_shown "bigcrush_wrapper" (initial_state [[x01; x00; x00; x00]]))
     = (stdout (initial_state [[x01; x00; x00; x00]])
        ++ usage "bigcrush_wrapper")%string
  /\ stdin_reads
       (help_shown "bigcrush_wrapper" (initial_state [[x01; x00; x00; x00]]))
     = stdin_reads (initial_state [[x01; x00; x00; x00]])
  /\ stdin
       (help_shown "bigcrush_wrapper" (initial_state [[x01; x00; x00; x00]]))
     = stdin (initial_state [[x01; x00; x00; x00]]).
Proof.
  apply help_prints_usage_only.
  - reflexivity.
  - reflexivity.
Defined.

(** Claim C9 as stated fails: on the command line [-n -n] the final argument
    is [-n] with nothing after it, yet it is consumed, as the value of the
    [-n] before it, and the name does not keep its previous value: the loop
    ends with the name [-n], where without the final argument it ends with
    the default name, and BigCrush is run on a generator named [-n]. *)
Lemma final_name_flag_taken_as_name :
  last ["bigcrush_wrapper"; "-n"; "-n"]%string EmptyString = "-n"%string
  /\ is_flag "-n" "-n" "--name" = true
  /\ main_loop 3 ["bigcrush_wrapper"; "-n"; "-n"]%string 1 "Rust RNG" 2
       (initial_state [])
     = Return (Selected "-n" 2) (initial_state [])
  /\ main_loop 2 ["bigcrush_wrapper"; "-n"]%string 1 "Rust RNG" 2
       (initial_state [])
     = Return (Selected "Rust RNG" 2) (initial_state [])
  /\ stdout
       (final_state
          (main one_draw_battery one_draw_battery one_draw_battery
             ["bigcrush_wrapper"; "-n"; "-n"]%string
             (initial_state [[x01; x00; x00; x00]])))
     = ("Running BigCrush on '-n'..." ++ LF)%string
  /\ main one_draw_battery one_draw_battery one_draw_battery
       ["bigcrush_wrapper"; "-n"; "-n"]%string
       (initial_state [[x01; x00; x00; x00]])
     <> main one_draw_battery one_draw_battery one_draw_battery
          ["bigcrush_wrapper"; "-n"]%string
          (initial_state [[x01; x00; x00; x00]]).
Proof.
  repeat split; try (vm_compute; reflexivity).
  intros H. apply (f_equal (fun o => stdout (final_state o))) in H.
  vm_compute in H. discriminate.
Qed.

(** Claim C9, amended.  When [-n] or [--name] is the final argument, with no
    value after it, and is examined as an option, that is, it is not itself
    the value of a [-n]/[--name] before it ([awaits_value] is false of the
    arguments before it), argument parsing neither fails nor consumes
    anything: the loop ends with [name] and [test_type] as they were and the
    state untouched, so the command line selects the name and the battery it
    selects without the flag, [main] does what it does without the flag, and
    with the flag as only argument the default battery runs under the
    default name. *)
Theorem trailing_name_flag_changes_nothing bS bC bB :
  (forall fuel argv i name test_type st,
      S i = List.length argv ->
      is_flag (nth i argv EmptyString) "-n" "--name" = true ->
      main_loop (S fuel) argv i name test_type st
      = Return (Selected name test_type) st)
  /\ (forall argv0 pre f st,
         is_flag f "-n" "--name" = true -> awaits_value pre = false ->
         main_loop (List.length (argv0 :: pre ++ [f])) (argv0 :: pre ++ [f]) 1
           "Rust RNG" 2 st
         = main_loop (List.length (argv0 :: pre)) (argv0 :: pre) 1
             "Rust RNG" 2 st)
  /\ (forall argv0 pre f st,
         is_flag f "-n" "--name" = true -> awaits_value pre = false ->
         main bS bC bB (argv0 :: pre ++ [f]) st
         = main bS bC bB (argv0 :: pre) st)
  /\ (forall argv0 f st,
         is_flag f "-n" "--name" = true ->
         main bS bC bB [argv0; f] st = dispatch bS bC bB "Rust RNG" 2 st).
Proof.
  split; [|split; [|split]].
  - intros fuel argv i name test_type st Hlast Hf.
    destruct (name_flag_only _ Hf) as (Hs & Hm & Hb).
    cbn [main_loop].
    replace (i <? List.length argv)%nat with true
      by (symmetry; apply Nat.ltb_lt; lia).
    rewrite Hs, Hm, Hb, Hf.
    replace (i + 1 <? List.length argv)%nat with false
      by (symmetry; apply Nat.ltb_ge; lia).
    destruct fuel as [|fuel]; [reflexivity|]. cbn [main_loop].
    replace (i + 1 <? List.length argv)%nat with false
      by (symmetry; apply Nat.ltb_ge; lia).
    reflexivity.
  - intros argv0 pre f st Hf Hclosed.
    rewrite !main_loop_scan by (cbn; lia). cbn [nth skipn].
    now apply scan_trailing_name.
  - intros argv0 pre f st Hf Hclosed.
    rewrite !main_scan, scan_trailing_name by assumption. reflexivity.
  - intros argv0 f st Hf.
    rewrite main_scan.
    rewrite (scan_trailing_name argv0 [] f) by (assumption || reflexivity).
    reflexivity.
Qed.

Lemma trailing_name_flag_changes_nothing_witness :
  main_loop 3 ["bigcrush_wrapper"; "-s"; "--name"]%string 2 "Rust RNG" 0
    (initial_state [])
  = Return (Selected "Rust RNG" 0) (initial_state [])
  /\ main one_draw_battery one_draw_battery one_draw_battery
       ("bigcrush_wrapper"%string :: ["-n"; "-n"; "-m"]%string ++ ["-n"%string])
       (initial_state [[x01; x00; x00; x00]])
     = main one_draw_battery one_draw_battery one_draw_battery
         ("bigcrush_wrapper"%string :: ["-n"; "-n"; "-m"]%string)
         (initial_state [[x01; x00; x00; x00]]).
Proof.
  split.
  - apply (proj1 (trailing_name_flag_changes_nothing
                    one_draw_battery one_draw_battery one_draw_battery)
             2%nat ["bigcrush_wrapper"; "-s"; "--name"]%string 2%nat).
    + reflexivity.
    + reflexivity.
  - apply (proj1 (proj2 (proj2 (trailing_name_flag_changes_nothing
                                  one_draw_battery one_draw_battery
                                  one_draw_battery)))
             "bigcrush_wrapper"%string ["-n"; "-n"; "-m"]%string "-n"%string).
    + reflexivity.
    + reflexivity.
Defined.

(** Claim C10 as stated fails: on the command line [-m -n -s] the last battery
    flag is [-s], yet [-s] is taken as the display name and Crush is run. *)
Lemma battery_flag_after_name_is_a_name :
  last_battery (tl ["bigcrush_wrapper"; "-m"; "-n"; "-s"]%string) 2 = 0
  /\ main_loop 4 ["bigcrush_wrapper"; "-m"; "-n"; "-s"]%string 1 "Rust RNG" 2
       (initial_state [])
     = Return (Selected "-s" 1) (initial_state [])
  /\ stdout
       (final_state
          (main one_draw_battery one_draw_battery one_draw_battery
             ["bigcrush_wrapper"; "-m"; "-n"; "-s"]%string
             (initial_state [[x01; x00; x00; x00]])))
     = ("Running Crush on '-s'..." ++ LF)%string.
Proof. repeat split; vm_compute; reflexivity. Qed.

(** Claim C10, amended.  The loop scans left to right, taking the argument
    after each [-n]/[--name] as its value.  When no examined argument is
    [-h]/[--help], the battery run is the one of the last battery flag among
    the examined arguments (BigCrush if there is none); and an argument that
    matches no option and is not the value of a [-n]/[--name] can be dropped
    without changing what [main] does. *)
Theorem last_examined_battery_flag_wins bS bC bB :
  (forall argv0 args st,
      (forall a, In a (examined args) -> is_flag a "-h" "--help" = false) ->
      exists name,
        main_loop (List.length (argv0 :: args)) (argv0 :: args) 1
          "Rust RNG" 2 st
        = Return (Selected name (last_battery (examined args) 2)) st
        /\ main bS bC bB (argv0 :: args) st
           = dispatch bS bC bB name (last_battery (examined args) 2) st)
  /\ (forall argv0 pre x post st,
         unknown_arg x -> awaits_value pre = false ->
         main bS bC bB (argv0 :: pre ++ x :: post) st
         = main bS bC bB (argv0 :: pre ++ post) st).
Proof.
  split.
  - intros argv0 args st Hhelp.
    destruct (scan_selected argv0 args "Rust RNG" 2 st Hhelp) as (name & Hscan).
    exists name. split.
    + rewrite main_loop_scan by (cbn; lia). exact Hscan.
    + rewrite main_scan, Hscan. reflexivity.
  - intros argv0 pre x post st Hx Hclosed.
    rewrite !main_scan, scan_unknown by assumption. reflexivity.
Qed.

Lemma last_examined_battery_flag_wins_witness :
  exists name,
    main_loop 6 ["bigcrush_wrapper"; "-s"; "junk"; "-n"; "-b"; "-m"]%string 1
      "Rust RNG" 2 (initial_state [])
    = Return (Selected name 1) (initial_state [])
    /\ main one_draw_battery one_draw_battery one_draw_battery
         ["bigcrush_wrapper"; "-s"; "junk"; "-n"; "-b"; "-m"]%string
         (initial_state [])
       = dispatch one_draw_battery one_draw_battery one_draw_battery name 1
           (initial_state []).
Proof.
  apply (proj1 (last_examined_battery_flag_wins
                  one_draw_battery one_draw_battery one_draw_battery)
           "bigcrush_wrapper"%string ["-s"; "junk"; "-n"; "-b"; "-m"]%string).
  intros a Ha. cbn in Ha.
  repeat (destruct Ha as [<-|Ha]; [reflexivity|]). contradiction.
Defined.

(** * Further properties of the code *)

(** ** The reader on an arbitrary state *)

Lemma body_is_guarded_take i value st :
  read_uint32_body i value st
  = (ensure_byte ;;;
     b <- take_byte ;;
     ret (Z.lor value (uint32 (Z.shiftl (byte_to_Z b) (i * 8))))) st.
Proof. reflexivity. Qed.

Lemma ensure_byte_in_bounds st st1 :
  cursor_sane st -> array_whole st ->
  ensure_byte st = Return tt st1 ->
  0 <= buffer_pos st1 < buffer_len st1
  /\ buffer_len st1 <= BUFFER_SIZE
  /\ array_whole st1.
Proof.
  intros [Hpos Hlen] Hbuf. unfold ensure_byte, bind, array_whole in *.
  destruct (buffer_pos st >=? buffer_len st) eqn:Hcmp.
  - unfold refill_buffer.
    pose proof (fread_short BUFFER_SIZE (stdin st)) as Hshort.
    destruct (fread BUFFER_SIZE (stdin st)) as [got input'].
    cbn [fst] in Hshort.
    destruct (0 <? Z.of_nat (List.length got)) eqn:Hgot; cbn;
      intros H; [|discriminate].
    injection H as <-. cbn. apply Z.ltb_lt in Hgot.
    unfold BUFFER_SIZE in *.
    rewrite store_prefix_length by lia. lia.
  - rewrite Z.geb_leb in Hcmp. apply Z.leb_gt in Hcmp. cbn.
    intros H. injection H as <-. unfold BUFFER_SIZE in *. lia.
Qed.

Lemma refill_array_whole st :
  array_whole st -> array_whole (final_state (refill_buffer st)).
Proof.
  unfold array_whole, refill_buffer. intros Hbuf.
  pose proof (fread_short BUFFER_SIZE (stdin st)) as Hshort.
  destruct (fread BUFFER_SIZE (stdin st)) as [got input'].
  cbn [fst] in Hshort. cbn. unfold BUFFER_SIZE in *.
  rewrite store_prefix_length; lia.
Qed.

Lemma body_array_whole i value st :
  array_whole st ->
  array_whole (final_state (read_uint32_body i value st)).
Proof.
  intros Hbuf. pose proof (refill_array_whole st Hbuf) as Hrefill.
  unfold read_uint32_body, bind.
  destruct (buffer_pos st >=? buffer_len st); [|exact Hbuf].
  unfold refill_buffer in *.
  destruct (fread BUFFER_SIZE (stdin st)) as [got input'].
  destruct (0 <? Z.of_nat (List.length got)); exact Hrefill.
Qed.

Lemma loop_array_whole remaining : forall i value st,
  array_whole st ->
  array_whole (final_state (read_uint32_loop remaining i value st)).
Proof.
  induction remaining as [|remaining IH]; intros i value st Hbuf;
    [exact Hbuf|].
  cbn [read_uint32_loop]. unfold bind.
  pose proof (body_array_whole i value st Hbuf) as Hbody.
  destruct (read_uint32_body i value st) as [value' st1|status st1];
    cbn [final_state] in *; [now apply IH|assumption].
Qed.

Lemma step_array_whole st st' :
  array_whole st -> reader_step st st' -> array_whole st'.
Proof.
  intros Hbuf Hstep. destruct Hstep.
  - now apply refill_array_whole.
  - now apply body_array_whole.
  - now apply loop_array_whole.
Qed.

Lemma reached_sound st0 st :
  cursor_sane st0 -> array_whole st0 -> reached_from st0 st ->
  cursor_sane st /\ array_whole st.
Proof.
  intros Hsane Hbuf Hreach. unfold reached_from in Hreach.
  induction Hreach as [st0 st1 Hstep|st0 st1 st2 Hstep _ IH].
  - split; [|now apply step_array_whole with st0].
    apply invariant_sane. now apply step_invariant with st0.
  - apply IH; [|now apply step_array_whole with st0].
    apply invariant_sane. now apply step_invariant with st0.
Qed.

Lemma initial_state_whole input : array_whole (initial_state input).
Proof. unfold array_whole. cbn. now rewrite repeat_length. Qed.

(** Extra X1.  The array is never indexed out of bounds: in the initial state
    and in every state the reader reaches, whenever the guard of the loop
    body lets the read [buffer[buffer_pos]] happen, [buffer_pos] is below
    [buffer_len], which is at most the 4096 bytes the array still has. *)
Theorem take_byte_in_bounds input st st1 :
  st = initial_state input \/ reached_from (initial_state input) st ->
  ensure_byte st = Return tt st1 ->
  0 <= buffer_pos st1 < buffer_len st1
  /\ buffer_len st1 <= BUFFER_SIZE
  /\ List.length (buffer st1) = Z.to_nat BUFFER_SIZE.
Proof.
  intros Hst Hguard.
  assert (Hsound : cursor_sane st /\ array_whole st).
  { destruct Hst as [->|Hreach].
    - split; [apply initial_state_sane|apply initial_state_whole].
    - apply (reached_sound (initial_state input));
        [apply initial_state_sane|apply initial_state_whole|assumption]. }
  destruct Hsound as [Hsane Hwhole].
  exact (ensure_byte_in_bounds st st1 Hsane Hwhole Hguard).
Qed.

Lemma take_byte_in_bounds_witness :
  0 <= buffer_pos
         (final_state (ensure_byte (initial_state [[x01; x02; x03]])))
    < buffer_len
        (final_state (ensure_byte (initial_state [[x01; x02; x03]])))
  /\ buffer_len
       (final_state (ensure_byte (initial_state [[x01; x02; x03]])))
     <= BUFFER_SIZE
  /\ List.length
       (buffer (final_state (ensure_byte (initial_state [[x01; x02; x03]]))))
     = Z.to_nat BUFFER_SIZE.
Proof.
  apply (take_byte_in_bounds [[x01; x02; x03]]
           (initial_state [[x01; x02; x03]])).
  - left. reflexivity.
  - reflexivity.
Defined.

Lemma body_effects i value st :
  match read_uint32_body i value st with
  | Return value' st' =>
      (exists b,
          value' = Z.lor value (uint32 (Z.shiftl (byte_to_Z b) (i * 8))))
      /\ stderr st' = stderr st /\ reads_only st st'
  | Exit status st' =>
      status = 1
      /\ stderr st' = (stderr st ++ exhausted_msg)%string
      /\ buffer_len st' = 0 /\ reads_only st st'
      /\ (stdin_reads st < stdin_reads st')%nat
  end.
Proof.
  unfold read_uint32_body, bind, reads_only.
  destruct (buffer_pos st >=? buffer_len st).
  - unfold refill_buffer.
    destruct (fread BUFFER_SIZE (stdin st)) as [got input'].
    destruct (0 <? Z.of_nat (List.length got)) eqn:Hgot; cbn.
    + repeat split; try lia. eexists; reflexivity.
    + apply Z.ltb_ge in Hgot. repeat split; lia.
  - cbn. repeat split; try lia. eexists; reflexivity.
Qed.

Lemma loop_effects remaining : forall i value st,
  match read_uint32_loop remaining i value st with
  | Return value' st' =>
      (exists bytes,
          List.length bytes = remaining /\ value' = assemble i value bytes)
      /\ stderr st' = stderr st /\ reads_only st st'
  | Exit status st' =>
      status = 1
      /\ stderr st' = (stderr st ++ exhausted_msg)%string
      /\ buffer_len st' = 0 /\ reads_only st st'
      /\ (stdin_reads st < stdin_reads st')%nat
  end.
Proof.
  induction remaining as [|remaining IH]; intros i value st.
  - cbn. unfold reads_only. repeat split; try lia. now exists [].
  - cbn [read_uint32_loop]. unfold bind.
    pose proof (body_effects i value st) as Hbody.
    destruct (read_uint32_body i value st) as [value1 st1|status st1];
      [|exact Hbody].
    destruct Hbody as ((b & ->) & Herr1 & Hout1 & Hheap1 & Hreads1).
    specialize (IH (i + 1)
                  (Z.lor value (uint32 (Z.shiftl (byte_to_Z b) (i * 8)))) st1).
    destruct (read_uint32_loop remaining (i + 1) _ st1)
      as [value2 st2|status st2].
    + destruct IH as ((bytes & Hlen & ->) & Herr2 & Hout2 & Hheap2 & Hreads2).
      unfold reads_only. repeat split; try congruence; try lia.
      exists (b :: bytes). split; [cbn; now f_equal|reflexivity].
    + destruct IH as (-> & Herr2 & Hzero & (Hout2 & Hheap2 & Hreads2) & Hlt).
      unfold reads_only. repeat split; try congruence; lia.
Qed.

(** Extra X2.  Called in a state whose cursor is not negative, whose fill
    length is within the capacity and whose array is whole (as the initial
    state and every state the reader reaches are, so that every array read
    is in bounds), [read_uint32] either returns a value below 2^32, leaving
    standard output, standard error and the allocator as they were, or
    terminates the process with status 1, having appended exactly the
    exhaustion message to standard error (and nothing to standard output)
    after an [fread] that obtained no byte.  Either way it leaves a state of
    the same kind. *)
Theorem read_uint32_effects st :
  cursor_sane st -> array_whole st ->
  match read_uint32 st with
  | Return v st' =>
      0 <= v < 2 ^ 32
      /\ stdout st' = stdout st /\ stderr st' = stderr st
      /\ heap_exhausted st' = heap_exhausted st
      /\ cursor_sane st' /\ array_whole st'
  | Exit status st' =>
      status = 1
      /\ stderr st' = (stderr st ++ exhausted_msg)%string
      /\ stdout st' = stdout st
      /\ buffer_len st' = 0
      /\ (stdin_reads st < stdin_reads st')%nat
      /\ cursor_sane st' /\ array_whole st'
  end.
Proof.
  intros Hsane Hwhole. unfold read_uint32.
  pose proof (loop_effects 4 0 0 st) as H.
  pose proof (invariant_sane _
                (loop_invariant 4 0 0 st Hsane ltac:(discriminate)))
    as Hsane'.
  pose proof (loop_array_whole 4 0 0 st Hwhole) as Hwhole'.
  destruct (read_uint32_loop 4 0 0 st) as [v st'|status st'];
    cbn [final_state] in Hsane', Hwhole'.
  - destruct H as ((bytes & Hlen & ->) & Herr & Hout & Hheap & _).
    destruct bytes as [|b0 [|b1 [|b2 [|b3 [|]]]]]; try discriminate.
    rewrite assemble_le32. split; [apply le32_range|]. auto.
  - destruct H as (-> & Herr & Hzero & (Hout & _) & Hlt). auto 10.
Qed.

Lemma read_uint32_effects_witness :
  match read_uint32 (initial_state [[x01; x02]; [x03]]) with
  | Return v st' =>
      0 <= v < 2 ^ 32
      /\ stdout st' = stdout (initial_state [[x01; x02]; [x03]])
      /\ stderr st' = stderr (initial_state [[x01; x02]; [x03]])
      /\ heap_exhausted st'
         = heap_exhausted (initial_state [[x01; x02]; [x03]])
      /\ cursor_sane st' /\ array_whole st'
  | Exit status st' =>
      status = 1
      /\ stderr st'
         = (stderr (initial_state [[x01; x02]; [x03]]) ++ exhausted_msg)%string
      /\ stdout st' = stdout (initial_state [[x01; x02]; [x03]])
      /\ buffer_len st' = 0
      /\ (stdin_reads (initial_state [[x01; x02]; [x03]])
          < stdin_reads st')%nat
      /\ cursor_sane st' /\ array_whole st'
  end.
Proof.
  apply (read_uint32_effects (initial_state [[x01; x02]; [x03]])).
  - unfold cursor_sane. cbn. unfold BUFFER_SIZE. lia.
  - reflexivity.
Defined.

(** ** The reader on a well-formed state *)

Lemma body_exhausted_end i value st :
  reader_ok st -> pending st = [] ->
  exists st',
    read_uint32_body i value st = Exit 1 st'
    /\ stdin st' = [] /\ buffer_len st' = 0.
Proof.
  intros Hok Hpend.
  destruct (pending_nil_drained st Hok Hpend) as [Hcmp Hin].
  unfold read_uint32_body, bind.
  replace (buffer_pos st >=? buffer_len st) with true
    by (symmetry; rewrite Z.geb_leb; now apply Z.leb_le).
  unfold refill_buffer. rewrite Hin. cbn.
  eexists. split; [reflexivity|]. split; reflexivity.
Qed.

Lemma loop_exhausted_end remaining : forall i value st,
  reader_ok st -> (List.length (pending st) < remaining)%nat ->
  exists st',
    read_uint32_loop remaining i value st = Exit 1 st'
    /\ stdin st' = [] /\ buffer_len st' = 0.
Proof.
  induction remaining as [|remaining IH]; intros i value st Hok Hshort; [lia|].
  cbn [read_uint32_loop]. unfold bind.
  destruct (pending st) as [|b rest] eqn:Hpend.
  - destruct (body_exhausted_end i value st Hok Hpend) as (st' & Hbody & Hrest).
    exists st'. rewrite Hbody. split; [reflexivity|exact Hrest].
  - destruct (body_next i value st b rest Hok Hpend)
      as (st1 & Hbody & Hok1 & Hpend1 & _).
    rewrite Hbody. apply IH; [assumption|].
    rewrite Hpend1. cbn [List.length] in Hshort. lia.
Qed.

(** Extra X3.  On a well-formed reader state [read_uint32] never fails while
    four bytes are still to come, and never returns when they are not: it
    returns exactly when at least four bytes are pending, consuming the first
    four of them; and when it terminates the process, standard input has been
    read to its end and the buffer holds nothing. *)
Theorem read_uint32_fails_only_at_end st :
  reader_ok st ->
  match read_uint32 st with
  | Return v st' =>
      (4 <= List.length (pending st))%nat
      /\ pending st' = skipn 4 (pending st)
      /\ [v] = le_groups (firstn 4 (pending st))
  | Exit status st' =>
      (List.length (pending st) < 4)%nat
      /\ stdin st' = [] /\ buffer_len st' = 0
  end.
Proof.
  intros Hok.
  destruct (le_lt_dec 4 (List.length (pending st))) as [Hlong|Hshort].
  - destruct (pending st) as [|b0 [|b1 [|b2 [|b3 rest]]]] eqn:Hpend;
      try (cbn in Hlong; lia).
    destruct (read_uint32_next st b0 b1 b2 b3 rest Hok Hpend)
      as (st' & -> & _ & Hpend' & _).
    split; [cbn; lia|]. split; [exact Hpend'|reflexivity].
  - destruct (loop_exhausted_end 4 0 0 st Hok Hshort) as (st' & Hloop & Hend).
    unfold read_uint32. rewrite Hloop. split; assumption.
Qed.

Lemma read_uint32_fails_only_at_end_witness :
  match read_uint32 (initial_state [[x01; x00]; [x00]]) with
  | Return v st' =>
      (4 <= List.length (pending (initial_state [[x01; x00]; [x00]])))%nat
      /\ pending st' = skipn 4 (pending (initial_state [[x01; x00]; [x00]]))
      /\ [v]
         = le_groups (firstn 4 (pending (initial_state [[x01; x00]; [x00]])))
  | Exit status st' =>
      (List.length (pending (initial_state [[x01; x00]; [x00]])) < 4)%nat
      /\ stdin st' = [] /\ buffer_len st' = 0
  end.
Proof.
  apply (read_uint32_fails_only_at_end (initial_state [[x01; x00]; [x00]])).
  apply initial_state_ok. repeat constructor; discriminate.
Defined.

Lemma body_buffered i value st :
  0 <= buffer_pos st -> buffer_pos st < buffer_len st ->
  buffer_len st <= BUFFER_SIZE ->
  read_uint32_body i value st
  = Return
      (Z.lor value
         (uint32
            (Z.shiftl
               (byte_to_Z (nth (Z.to_nat (buffer_pos st)) (buffer st) x00))
               (i * 8))))
      (mkState (buffer st) (buffer_pos st + 1) (buffer_len st) (stdin st)
         (stdin_reads st) (stdout st) (stderr st) (heap_exhausted st)).
Proof.
  intros Hpos Hlt Hlen. unfold read_uint32_body, bind.
  replace (buffer_pos st >=? buffer_len st) with false
    by (symmetry; rewrite Z.geb_leb; apply Z.leb_gt; lia).
  cbn. rewrite size_t_small by lia. reflexivity.
Qed.

(** A value that lies wholly in the current fill is read without [fread]:
    only the cursor moves. *)
Lemma read_buffered st :
  0 <= buffer_pos st -> buffer_pos st + 4 <= buffer_len st ->
  buffer_len st <= BUFFER_SIZE ->
  exists v,
    read_uint32 st
    = Return v
        (mkState (buffer st) (buffer_pos st + 4) (buffer_len st) (stdin st)
           (stdin_reads st) (stdout st) (stderr st) (heap_exhausted st)).
Proof.
  intros Hpos Hroom Hlen.
  unfold read_uint32. cbn [read_uint32_loop]. unfold bind.
  rewrite body_buffered by lia.
  rewrite body_buffered by (cbn; lia).
  rewrite body_buffered by (cbn; lia).
  rewrite body_buffered by (cbn; lia).
  cbn [buffer buffer_pos buffer_len stdin stdin_reads stdout stderr
       heap_exhausted ret].
  replace (buffer_pos st + 1 + 1 + 1 + 1) with (buffer_pos st + 4) by lia.
  eexists. reflexivity.
Qed.

(** Extra X4.  The refill is lazy: when at least four bytes of the current
    fill are unread, [read_uint32] returns the little-endian value of the
    four bytes under the cursor and only moves the cursor by four; it issues
    no [fread] and leaves the array, standard input and both output streams
    as they were. *)
Theorem buffered_read_skips_fread st :
  0 <= buffer_pos st -> buffer_pos st + 4 <= buffer_len st ->
  buffer_len st <= BUFFER_SIZE ->
  read_uint32 st
  = Return
      (le32 (nth (Z.to_nat (buffer_pos st)) (buffer st) x00)
         (nth (Z.to_nat (buffer_pos st + 1)) (buffer st) x00)
         (nth (Z.to_nat (buffer_pos st + 2)) (buffer st) x00)
         (nth (Z.to_nat (buffer_pos st + 3)) (buffer st) x00))
      (mkState (buffer st) (buffer_pos st + 4) (buffer_len st) (stdin st)
         (stdin_reads st) (stdout st) (stderr st) (heap_exhausted st)).
Proof.
  intros Hpos Hroom Hlen. rewrite <- assemble_le32.
  unfold read_uint32. cbn [read_uint32_loop assemble]. unfold bind.
  rewrite body_buffered by lia.
  rewrite body_buffered by (cbn; lia).
  rewrite body_buffered by (cbn; lia).
  rewrite body_buffered by (cbn; lia).
  cbn [buffer buffer_pos buffer_len stdin stdin_reads stdout stderr
       heap_exhausted ret].
  replace (buffer_pos st + 1 + 1) with (buffer_pos st + 2) by lia.
  replace (buffer_pos st + 2 + 1) with (buffer_pos st + 3) by lia.
  replace (buffer_pos st + 3 + 1) with (buffer_pos st + 4) by lia.
  reflexivity.
Qed.

Lemma buffered_read_skips_fread_witness :
  read_uint32
    (mkState (ramp 4096) 8 12 [[xff]] 1%nat EmptyString EmptyString false)
  = Return 185207048
      (mkState (ramp 4096) 12 12 [[xff]] 1%nat EmptyString EmptyString false).
Proof.
  apply (buffered_read_skips_fread
           (mkState (ramp 4096) 8 12 [[xff]] 1%nat EmptyString EmptyString
              false)).
  - cbn. lia.
  - cbn. lia.
  - cbn. unfold BUFFER_SIZE. lia.
Defined.

(** Extra X5.  Called on a drained buffer, as [read_uint32] calls it,
    [refill_buffer] loses and invents nothing: the bytes still to come are
    the same before and after, now starting at index 0 of the array; it
    issues exactly one [fread]; and it reports success exactly when there was
    a byte still to come. *)
Theorem refill_conserves_stream st filled st' :
  reader_ok st -> buffer_len st <= buffer_pos st ->
  refill_buffer st = Return filled st' ->
  pending st' = pending st
  /\ reader_ok st'
  /\ (filled = true <-> pending st <> [])
  /\ buffer_pos st' = 0
  /\ buffer_len st' = Z.of_nat (List.length (unread st'))
  /\ stdin_reads st' = S (stdin_reads st).
Proof.
  intros [Hbuf Hlen Hpos Hin] Hdrained. unfold refill_buffer.
  destruct (fread BUFFER_SIZE (stdin st)) as [got input'] eqn:Hfread.
  destruct (fread_spec BUFFER_SIZE _ _ _ eq_refl Hin Hfread)
    as (Hcat & Hlive & Hshort & Hnil).
  intros H. injection H as <- <-.
  assert (Hunread : unread st = []).
  { unfold unread.
    now replace (Z.to_nat (buffer_len st - buffer_pos st)) with 0%nat by lia. }
  assert (Hunread' :
            unread (mkState (store_prefix got (buffer st)) 0
                      (Z.of_nat (List.length got)) input'
                      (S (stdin_reads st)) (stdout st) (stderr st)
                      (heap_exhausted st)) = got).
  { unfold unread, store_prefix. cbn [buffer buffer_pos buffer_len].
    rewrite Z.sub_0_r, Nat2Z.id. cbn [Z.to_nat skipn].
    rewrite <- (Nat.add_0_r (List.length got)) at 1.
    rewrite firstn_app_2. cbn [firstn]. apply app_nil_r. }
  unfold pending. rewrite Hunread, Hunread'. cbn [stdin app].
  split; [exact Hcat|]. split.
  { split; cbn [buffer buffer_pos buffer_len stdin]; unfold BUFFER_SIZE in *;
      try lia; try assumption.
    rewrite store_prefix_length; lia. }
  split.
  { rewrite <- Hcat. split.
    - intros Hfilled Hnone. apply Z.ltb_lt in Hfilled.
      apply app_eq_nil in Hnone. destruct Hnone as [-> _]. cbn in Hfilled. lia.
    - intros Hsome. apply Z.ltb_lt.
      destruct got; [|cbn; lia].
      exfalso. apply Hsome. rewrite (Hnil eq_refl) in Hfread.
      cbn in Hfread. injection Hfread as <-. reflexivity. }
  cbn [buffer_pos buffer_len stdin_reads]. repeat split.
Qed.

Lemma refill_conserves_stream_witness :
  pending (final_state (refill_buffer (initial_state [[x0a; x0b]; [x0c]])))
  = pending (initial_state [[x0a; x0b]; [x0c]])
  /\ reader_ok (final_state (refill_buffer (initial_state [[x0a; x0b]; [x0c]])))
  /\ (true = true <-> pending (initial_state [[x0a; x0b]; [x0c]]) <> [])
  /\ buffer_pos
       (final_state (refill_buffer (initial_state [[x0a; x0b]; [x0c]]))) = 0
  /\ buffer_len
       (final_state (refill_buffer (initial_state [[x0a; x0b]; [x0c]])))
     = Z.of_nat
         (List.length
            (unread
               (final_state
                  (refill_buffer (initial_state [[x0a; x0b]; [x0c]])))))
  /\ stdin_reads
       (final_state (refill_buffer (initial_state [[x0a; x0b]; [x0c]])))
     = S (stdin_reads (initial_state [[x0a; x0b]; [x0c]])).
Proof.
  apply (refill_conserves_stream (initial_state [[x0a; x0b]; [x0c]]) true).
  - apply initial_state_ok. repeat constructor; discriminate.
  - cbn. unfold BUFFER_SIZE. lia.
  - reflexivity.
Defined.

(** ** Decoding as the inverse of little-endian encoding *)

Lemma byte_to_Z_inj a b : byte_to_Z a = byte_to_Z b -> a = b.
Proof.
  unfold byte_to_Z. intros H. apply N2Z.inj in H.
  pose proof (Byte.of_to_N a) as Ha. rewrite H, Byte.of_to_N in Ha.
  now injection Ha.
Qed.

Lemma byte_to_of_Z z : byte_to_Z (byte_of_Z z) = z mod 256.
Proof.
  unfold byte_to_Z, byte_of_Z.
  pose proof (Z.mod_pos_bound z 256 ltac:(lia)) as Hz.
  pose proof (Byte.to_of_N_option_map (Z.to_N (z mod 256))) as H.
  replace (Z.to_N (z mod 256) <=? 255)%N with true in H
    by (symmetry; apply N.leb_le; lia).
  destruct (Byte.of_N (Z.to_N (z mod 256))) as [b|]; [|discriminate].
  cbn in H. injection H as ->. lia.
Qed.

Lemma le32_le_bytes v :
  0 <= v < 2 ^ 32 ->
  le32 (byte_of_Z v) (byte_of_Z (v / 2 ^ 8)) (byte_of_Z (v / 2 ^ 16))
    (byte_of_Z (v / 2 ^ 24)) = v.
Proof.
  intros Hv. unfold le32. rewrite !byte_to_of_Z.
  change (2 ^ 8) with 256. change (2 ^ 16) with 65536.
  change (2 ^ 24) with 16777216. change (2 ^ 32) with 4294967296 in Hv.
  Z.div_mod_to_equations. lia.
Qed.

Lemma le_groups_encoded vs :
  Forall (fun v => 0 <= v < 2 ^ 32) vs ->
  le_groups (flat_map le_bytes vs) = vs.
Proof.
  induction 1 as [|v vs Hv _ IH]; [reflexivity|].
  cbn [flat_map le_bytes app le_groups]. now rewrite le32_le_bytes, IH.
Qed.

Lemma encoded_length vs :
  List.length (flat_map le_bytes vs) = (4 * List.length vs)%nat.
Proof.
  induction vs as [|v vs IH]; [reflexivity|].
  cbn [flat_map le_bytes app List.length]. rewrite IH. lia.
Qed.

(** Extra X6.  Decoding undoes little-endian encoding: if the input is the
    concatenation of the four-byte little-endian encodings of the 32-bit
    values [vs], then, in whatever pieces it arrives, as many calls of
    [read_uint32] as there are values return exactly [vs]. *)
Theorem read_many_decodes_encoding input vs :
  live_input input ->
  List.concat input = flat_map le_bytes vs ->
  Forall (fun v => 0 <= v < 2 ^ 32) vs ->
  observable (read_many (List.length vs) (initial_state input)) = inl vs.
Proof.
  intros Hlive Hcat Hrange.
  destruct (read_many_next (List.length vs) (initial_state input)
              (flat_map le_bytes vs) [] (initial_state_ok input Hlive))
    as (st' & Hmany & _).
  - rewrite initial_state_pending, Hcat. now rewrite app_nil_r.
  - apply encoded_length.
  - rewrite Hmany. cbn [observable]. now rewrite le_groups_encoded.
Qed.

Lemma read_many_decodes_encoding_witness :
  observable
    (read_many 2
       (initial_state [[xef; xbe; xad]; [xde; x00; x00; x00]; [x80]]))
  = inl [3735928559; 2147483648].
Proof.
  apply (read_many_decodes_encoding
           [[xef; xbe; xad]; [xde; x00; x00; x00]; [x80]]
           [3735928559; 2147483648]).
  - repeat constructor; discriminate.
  - reflexivity.
  - repeat constructor; lia.
Defined.

(** Two groups of four bytes with the same little-endian value are the same
    four bytes. *)
Lemma le32_injective b0 b1 b2 b3 c0 c1 c2 c3 :
  le32 b0 b1 b2 b3 = le32 c0 c1 c2 c3 ->
  b0 = c0 /\ b1 = c1 /\ b2 = c2 /\ b3 = c3.
Proof.
  unfold le32. intros H.
  pose proof (byte_to_Z_range b0). pose proof (byte_to_Z_range b1).
  pose proof (byte_to_Z_range b2). pose proof (byte_to_Z_range b3).
  pose proof (byte_to_Z_range c0). pose proof (byte_to_Z_range c1).
  pose proof (byte_to_Z_range c2). pose proof (byte_to_Z_range c3).
  change (2 ^ 8) with 256 in *. change (2 ^ 16) with 65536 in *.
  change (2 ^ 24) with 16777216 in *.
  repeat split; apply byte_to_Z_inj; lia.
Qed.

(** Extra X7.  Decoding loses nothing: if [read_uint32] returns the same
    value from two well-formed reader states, the four bytes it consumed were
    the same in both. *)
Theorem read_uint32_injective st1 st2 v st1' st2' :
  reader_ok st1 -> reader_ok st2 ->
  read_uint32 st1 = Return v st1' -> read_uint32 st2 = Return v st2' ->
  firstn 4 (pending st1) = firstn 4 (pending st2).
Proof.
  intros Hok1 Hok2 Hread1 Hread2.
  destruct (pending st1) as [|b0 [|b1 [|b2 [|b3 rest1]]]] eqn:Hpend1;
    try (destruct (read_uint32_exhausted st1 Hok1) as (st' & Hexit & _);
         [rewrite Hpend1; cbn; lia|congruence]).
  destruct (pending st2) as [|c0 [|c1 [|c2 [|c3 rest2]]]] eqn:Hpend2;
    try (destruct (read_uint32_exhausted st2 Hok2) as (st' & Hexit & _);
         [rewrite Hpend2; cbn; lia|congruence]).
  destruct (read_uint32_next st1 b0 b1 b2 b3 rest1 Hok1 Hpend1)
    as (s1 & Hnext1 & _).
  destruct (read_uint32_next st2 c0 c1 c2 c3 rest2 Hok2 Hpend2)
    as (s2 & Hnext2 & _).
  assert (Hsame : le32 b0 b1 b2 b3 = le32 c0 c1 c2 c3) by congruence.
  destruct (le32_injective _ _ _ _ _ _ _ _ Hsame) as (-> & -> & -> & ->).
  reflexivity.
Qed.

Lemma read_uint32_injective_witness :
  firstn 4 (pending (initial_state [[x01; x02]; [x03; x04; x05]]))
  = firstn 4 (pending (initial_state [[x01; x02; x03; x04]; [x09]])).
Proof.
  apply (read_uint32_injective
           (initial_state [[x01; x02]; [x03; x04; x05]])
           (initial_state [[x01; x02; x03; x04]; [x09]])
           67305985
           (final_state (read_uint32 (initial_state [[x01; x02]; [x03; x04; x05]])))
           (final_state (read_uint32 (initial_state [[x01; x02; x03; x04]; [x09]])))).
  - apply initial_state_ok. repeat constructor; discriminate.
  - apply initial_state_ok. repeat constructor; discriminate.
  - vm_compute. reflexivity.
  - vm_compute. reflexivity.
Defined.

(** ** The unit-interval value as a function of the draw *)

Lemma u01_zero :
  double_div (double_of_uint32 0) lit_4294967296 = S754_zero false.
Proof. reflexivity. Qed.

Lemma u01_pos p :
  Z.pos p < 2 ^ 32 ->
  double_div (double_of_uint32 (Z.pos p)) lit_4294967296
  = S754_finite false (Pos.iter xO p (53 - digits2_pos p))
      (Z.pos (digits2_pos p) - 85).
Proof.
  intros Hp. pose proof (digits2_pos_le p 32 ltac:(lia) Hp) as Hd.
  rewrite double_of_uint32_pos by assumption.
  rewrite double_div_two32 by (rewrite ?digits2_pos_shift; lia).
  f_equal. lia.
Qed.

Lemma digits2_pos_mono p q :
  (p <= q)%positive -> Z.pos (digits2_pos p) <= Z.pos (digits2_pos q).
Proof.
  intros Hle. pose proof (digits2_pos_bounds p) as [Hlow _].
  pose proof (digits2_pos_bounds q) as [_ Hhigh].
  destruct (Z_le_gt_dec (Z.pos (digits2_pos p)) (Z.pos (digits2_pos q)))
    as [|Hgt]; [assumption|exfalso].
  assert (2 ^ Z.pos (digits2_pos q) <= 2 ^ (Z.pos (digits2_pos p) - 1))
    by (apply Z.pow_le_mono_r; lia).
  lia.
Qed.

Lemma u01_increasing v1 v2 :
  0 <= v1 -> v1 < v2 -> v2 < 2 ^ 32 ->
  double_lt (double_div (double_of_uint32 v1) lit_4294967296)
    (double_div (double_of_uint32 v2) lit_4294967296) = true.
Proof.
  intros H1 Hlt H2.
  destruct v2 as [|p2|p2]; try lia.
  rewrite (u01_pos p2) by assumption.
  destruct v1 as [|p1|p1]; try lia; [reflexivity|].
  rewrite (u01_pos p1) by lia.
  pose proof (digits2_pos_mono p1 p2 ltac:(lia)) as Hmono.
  pose proof (digits2_pos_le p2 32 ltac:(lia) H2) as Hd2.
  unfold double_lt, SFltb, SFcompare.
  destruct (Z.eq_dec (Z.pos (digits2_pos p1)) (Z.pos (digits2_pos p2)))
    as [Heq|Hne].
  - injection Heq as Heq. rewrite Heq, Z.compare_refl.
    change (Pos.compare_cont Eq ?a ?b) with (Pos.compare a b).
    replace (Pos.compare (Pos.iter xO p1 (53 - digits2_pos p2))
               (Pos.iter xO p2 (53 - digits2_pos p2))) with Lt; [reflexivity|].
    symmetry.
    match goal with
    | |- Pos.compare ?a ?b = Lt => change (Z.pos a < Z.pos b)
    end.
    rewrite !pos_shift_value.
    apply Z.mul_lt_mono_pos_r; [apply Z.pow_pos_nonneg; lia|lia].
  - replace (Z.pos (digits2_pos p1) - 85 ?= Z.pos (digits2_pos p2) - 85)
      with Lt by (symmetry; apply Z.compare_lt_iff; lia).
    reflexivity.
Qed.

(** Extra X8.  [stdin_u01] orders the draws as [stdin_bits] does: of two
    calls made where [stdin_bits] would return [v1 < v2], the second returns
    the strictly larger [double].  In particular distinct draws never
    collapse to one value of the unit interval. *)
Theorem stdin_u01_increasing param st_ptr st1 st2 v1 v2 x1 x2 s1 s2 t1 t2 :
  stdin_bits param st_ptr st1 = Return v1 s1 ->
  stdin_u01 param st_ptr st1 = Return x1 t1 ->
  stdin_bits param st_ptr st2 = Return v2 s2 ->
  stdin_u01 param st_ptr st2 = Return x2 t2 ->
  v1 < v2 ->
  double_lt x1 x2 = true.
Proof.
  unfold stdin_bits, stdin_u01, bind. intros B1 U1 B2 U2 Hlt.
  destruct (read_uint32 st1) as [w1 r1|] eqn:Hread1; [|discriminate].
  destruct (read_uint32 st2) as [w2 r2|] eqn:Hread2; [|discriminate].
  cbn in B1, U1, B2, U2.
  injection B1 as -> _. injection U1 as <- _.
  injection B2 as -> _. injection U2 as <- _.
  pose proof (read_uint32_range _ _ _ Hread1).
  pose proof (read_uint32_range _ _ _ Hread2).
  apply u01_increasing; lia.
Qed.

Lemma stdin_u01_increasing_witness :
  double_lt (S754_finite false 4503599627370496 (-84))
    (S754_finite false 9007199252643840 (-53)) = true.
Proof.
  apply (stdin_u01_increasing NULL NULL
           (initial_state [[x01; x00; x00; x00]])
           (initial_state [[xff; xff; xff; xff]])
           1 4294967295
           (S754_finite false 4503599627370496 (-84))
           (S754_finite false 9007199252643840 (-53))
           (final_state (read_uint32 (initial_state [[x01; x00; x00; x00]])))
           (final_state (read_uint32 (initial_state [[xff; xff; xff; xff]])))
           (final_state (read_uint32 (initial_state [[x01; x00; x00; x00]])))
           (final_state (read_uint32 (initial_state [[xff; xff; xff; xff]])))).
  - vm_compute. reflexivity.
  - vm_compute. reflexivity.
  - vm_compute. reflexivity.
  - vm_compute. reflexivity.
  - lia.
Defined.

(** Extra X9.  Every value [stdin_u01] returns is a well-formed binary64
    number that is either [+0.0] or a positive normal number: never a NaN,
    an infinity, a negative zero or a subnormal. *)
Theorem stdin_u01_normal param st_ptr st x st' :
  stdin_u01 param st_ptr st = Return x st' ->
  valid_binary double_prec double_emax x = true
  /\ (SFclassify double_prec x = FloatClass.PZero
      \/ SFclassify double_prec x = FloatClass.PNormal).
Proof.
  unfold stdin_u01, bind. intros H.
  destruct (read_uint32 st) as [v st1|] eqn:Hread; [|discriminate].
  cbn in H. injection H as <- _.
  pose proof (read_uint32_range _ _ _ Hread) as Hv.
  destruct v as [|p|p]; try lia.
  - split; [reflexivity|now left].
  - pose proof (digits2_pos_le p 32 ltac:(lia) ltac:(lia)) as Hd.
    rewrite u01_pos by lia.
    assert (Hdigits : Z.pos (digits2_pos (Pos.iter xO p (53 - digits2_pos p)))
                      = 53)
      by (rewrite digits2_pos_shift; lia).
    split.
    + unfold valid_binary, bounded, canonical_mantissa, fexp, emin,
        double_prec, double_emax.
      rewrite Hdigits. apply andb_true_iff. split.
      * apply Z.eqb_eq. std_Z. lia.
      * apply Z.leb_le. lia.
    + right. unfold SFclassify, double_prec. now rewrite Hdigits.
Qed.

Lemma stdin_u01_normal_witness :
  valid_binary double_prec double_emax
    (S754_finite false 9007199252643840 (-53)) = true
  /\ (SFclassify double_prec (S754_finite false 9007199252643840 (-53))
      = FloatClass.PZero
      \/ SFclassify double_prec (S754_finite false 9007199252643840 (-53))
         = FloatClass.PNormal).
Proof.
  apply (stdin_u01_normal NULL NULL (initial_state [[xff; xff; xff; xff]])
           (S754_finite false 9007199252643840 (-53))
           (final_state (read_uint32 (initial_state [[xff; xff; xff; xff]])))).
  vm_compute. reflexivity.
Defined.

(** ** [main]: allocation, dispatch and the display name *)

Lemma last_battery_range args : forall t,
  t = 0 \/ t = 1 \/ t = 2 ->
  last_battery args t = 0 \/ last_battery args t = 1
  \/ last_battery args t = 2.
Proof.
  induction args as [|a args IH]; intros t Ht; [exact Ht|].
  unfold last_battery. cbn [fold_left]. apply IH.
  destruct (is_flag a "-s" "--small"); [now left|].
  destruct (is_flag a "-m" "--medium"); [right; now left|].
  destruct (is_flag a "-b" "--big"); [right; now right|exact Ht].
Qed.

Lemma scan_plain argv0 args : forall name test_type st,
  plain_args args ->
  scan argv0 args name test_type st
  = Return (Selected name (last_battery args test_type)) st.
Proof.
  induction args as [|a args IH]; intros name test_type st Hplain;
    [reflexivity|].
  destruct (Hplain a (or_introl eq_refl)) as [Hn Hh].
  assert (Hrest : plain_args args)
    by (intros b Hb; apply Hplain; now right).
  cbn [scan]. unfold last_battery. cbn [fold_left].
  fold (last_battery args).
  destruct (is_flag a "-s" "--small"); [now apply IH|].
  destruct (is_flag a "-m" "--medium"); [now apply IH|].
  destruct (is_flag a "-b" "--big"); [now apply IH|].
  rewrite Hn, Hh. now apply IH.
Qed.

Section DispatchProofs.

Variables bS bC bB : unif01_Gen -> M unit.

Lemma dispatch_runs_one name test_type st :
  heap_exhausted st = false ->
  test_type = 0 \/ test_type = 1 \/ test_type = 2 ->
  dispatch bS bC bB name test_type st
  = (print_out (banner test_type name) ;;;
     battery_called bS bC bB test_type (stdin_gen name) ;;;
     ret 0) st.
Proof.
  intros Hheap Ht. unfold dispatch, bind, create_stdin_gen.
  rewrite Hheap. fold (stdin_gen name).
  destruct Ht as [->|[->| ->]]; cbn [run_battery battery_called];
    unfold bind; cbn [print_out]; unfold banner, battery_title;
    cbn [append];
    match goal with
    | |- context [bS ?g ?s] => destruct (bS g s)
    | |- context [bC ?g ?s] => destruct (bC g s)
    | |- context [bB ?g ?s] => destruct (bB g s)
    end; reflexivity.
Qed.

Lemma dispatch_malloc_failure name test_type st :
  heap_exhausted st = true ->
  dispatch bS bC bB name test_type st
  = Exit 1
      (mkState (buffer st) (buffer_pos st) (buffer_len st) (stdin st)
         (stdin_reads st) (stdout st) (stderr st ++ malloc_msg)%string
         (heap_exhausted st)).
Proof.
  intros Hheap. destruct st as [b p l i r o e h]. cbn in Hheap. subst h.
  reflexivity.
Qed.

End DispatchProofs.

(** Extra X10.  When [malloc] fails, [main] (on a command line that does not
    ask for help) terminates the process with status 1 after reporting the
    failure on standard error: it prints no banner, calls no battery and
    issues no [fread]. *)
Theorem main_malloc_failure bS bC bB argv0 args st :
  (forall a, In a (examined args) -> is_flag a "-h" "--help" = false) ->
  heap_exhausted st = true ->
  main bS bC bB (argv0 :: args) st
  = Exit 1
      (mkState (buffer st) (buffer_pos st) (buffer_len st) (stdin st)
         (stdin_reads st) (stdout st) (stderr st ++ malloc_msg)%string
         (heap_exhausted st)).
Proof.
  intros Hhelp Hheap.
  destruct (scan_selected argv0 args "Rust RNG" 2 st Hhelp) as (name & Hscan).
  rewrite main_scan, Hscan. now apply dispatch_malloc_failure.
Qed.

Lemma main_malloc_failure_witness :
  main one_draw_battery one_draw_battery one_draw_battery
    ["bigcrush_wrapper"; "-s"; "-n"; "-h"]%string
    (mkState [] 0 0 [[x01; x02; x03; x04]] 0 EmptyString EmptyString true)
  = Exit 1
      (mkState [] 0 0 [[x01; x02; x03; x04]] 0 EmptyString malloc_msg true).
Proof.
  apply (main_malloc_failure one_draw_battery one_draw_battery
           one_draw_battery "bigcrush_wrapper"%string
           ["-s"; "-n"; "-h"]%string
           (mkState [] 0 0 [[x01; x02; x03; x04]] 0 EmptyString EmptyString
              true)).
  - intros a Ha. cbn in Ha.
    repeat (destruct Ha as [<-|Ha]; [reflexivity|]). contradiction.
  - reflexivity.
Defined.

(** Extra X11.  On a command line that does not ask for help, and with the
    allocation succeeding, [main] does exactly this: it prints the banner
    naming the selected battery and the display name, calls that one battery
    (and neither of the other two) on the handle made for that name, and
    returns 0 if the battery returns.  The selection is always one of the
    three batteries; before the battery is called nothing has been read from
    standard input. *)
Theorem main_runs_one_battery bS bC bB argv0 args st :
  (forall a, In a (examined args) -> is_flag a "-h" "--help" = false) ->
  heap_exhausted st = false ->
  exists name,
    (last_battery (examined args) 2 = 0
     \/ last_battery (examined args) 2 = 1
     \/ last_battery (examined args) 2 = 2)
    /\ main bS bC bB (argv0 :: args) st
       = (print_out (banner (last_battery (examined args) 2) name) ;;;
          battery_called bS bC bB (last_battery (examined args) 2)
            (stdin_gen name) ;;;
          ret 0) st.
Proof.
  intros Hhelp Hheap.
  destruct (scan_selected argv0 args "Rust RNG" 2 st Hhelp) as (name & Hscan).
  pose proof (last_battery_range (examined args) 2 ltac:(tauto)) as Hrange.
  exists name. split; [exact Hrange|].
  rewrite main_scan, Hscan. now apply dispatch_runs_one.
Qed.

Lemma main_runs_one_battery_witness :
  exists name,
    (last_battery (examined ["-b"; "--small"]%string) 2 = 0
     \/ last_battery (examined ["-b"; "--small"]%string) 2 = 1
     \/ last_battery (examined ["-b"; "--small"]%string) 2 = 2)
    /\ main one_draw_battery (script_battery []) (script_battery [])
         ["bigcrush_wrapper"; "-b"; "--small"]%string
         (initial_state [[x01; x02; x03; x04]])
       = (print_out
            (banner (last_battery (examined ["-b"; "--small"]%string) 2) name)
          ;;;
          battery_called one_draw_battery (script_battery [])
            (script_battery [])
            (last_battery (examined ["-b"; "--small"]%string) 2)
            (stdin_gen name) ;;;
          ret 0) (initial_state [[x01; x02; x03; x04]]).
Proof.
  apply (main_runs_one_battery one_draw_battery (script_battery [])
           (script_battery []) "bigcrush_wrapper"%string
           ["-b"; "--small"]%string (initial_state [[x01; x02; x03; x04]])).
  - intros a Ha. cbn in Ha.
    repeat (destruct Ha as [<-|Ha]; [reflexivity|]). contradiction.
  - reflexivity.
Defined.

(** Extra X12.  Without [-n]/[--name] (and without a request for help) the
    display name is the default ["Rust RNG"], and the battery is the one of
    the last battery flag, BigCrush if there is none. *)
Theorem default_name_without_name_option argv0 args st :
  plain_args args ->
  main_loop (List.length (argv0 :: args)) (argv0 :: args) 1 "Rust RNG" 2 st
  = Return (Selected "Rust RNG" (last_battery args 2)) st.
Proof.
  intros Hplain. rewrite main_loop_scan by (cbn; lia). cbn [nth skipn].
  now apply scan_plain.
Qed.

Lemma default_name_without_name_option_witness :
  main_loop 3 ["bigcrush_wrapper"; "--medium"; "stray"]%string 1 "Rust RNG" 2
    (initial_state [])
  = Return (Selected "Rust RNG" 1) (initial_state []).
Proof.
  apply (default_name_without_name_option "bigcrush_wrapper"%string
           ["--medium"; "stray"]%string (initial_state [])).
  intros a Ha. cbn in Ha.
  repeat (destruct Ha as [<-|Ha]; [split; reflexivity|]). contradiction.
Defined.

(** Extra X13.  [-n]/[--name] takes whatever argument follows it as the
    display name, be it spelled like an option or not, and the last such
    pair wins: if the flag is examined as an option, is followed by [value],
    and no [-n]/[--name] or [-h]/[--help] comes after, the name is [value];
    the battery is decided by the battery flags around the pair, [value]
    itself never counting as one. *)
Theorem name_option_takes_any_value argv0 pre f value post st :
  is_flag f "-n" "--name" = true ->
  awaits_value pre = false ->
  (forall a, In a (examined pre) -> is_flag a "-h" "--help" = false) ->
  plain_args post ->
  main_loop (List.length (argv0 :: pre ++ f :: value :: post))
    (argv0 :: pre ++ f :: value :: post) 1 "Rust RNG" 2 st
  = Return
      (Selected value (last_battery post (last_battery (examined pre) 2))) st.
Proof.
  intros Hf Hclosed Hhelp Hplain.
  rewrite main_loop_scan by (cbn; lia). cbn [nth skipn].
  rewrite scan_app by assumption.
  destruct (scan_selected argv0 pre "Rust RNG" 2 st Hhelp) as (name & ->).
  destruct (name_flag_only f Hf) as (Hs & Hm & Hb).
  cbn [scan]. rewrite Hs, Hm, Hb, Hf. now apply scan_plain.
Qed.

Lemma name_option_takes_any_value_witness :
  main_loop 6 ["bigcrush_wrapper"; "-n"; "first"; "--name"; "-s"; "-m"]%string
    1 "Rust RNG" 2 (initial_state [])
  = Return (Selected "-s" 1) (initial_state []).
Proof.
  apply (name_option_takes_any_value "bigcrush_wrapper"%string
           ["-n"; "first"]%string "--name"%string "-s"%string ["-m"]%string
           (initial_state [])).
  - reflexivity.
  - reflexivity.
  - intros a Ha. cbn in Ha.
    repeat (destruct Ha as [<-|Ha]; [reflexivity|]). contradiction.
  - intros a Ha. cbn in Ha.
    repeat (destruct Ha as [<-|Ha]; [split; reflexivity|]). contradiction.
Defined.

(** ** [write_state] and the stream *)

Lemma body_frame_stdout s i value st :
  read_uint32_body i value (set_stdout s st)
  = map_state (set_stdout s) (read_uint32_body i value st).
Proof.
  unfold read_uint32_body, bind, set_stdout.
  cbn [buffer buffer_pos buffer_len stdin].
  destruct (buffer_pos st >=? buffer_len st); [|reflexivity].
  unfold refill_buffer. cbn [stdin].
  destruct (fread BUFFER_SIZE (stdin st)) as [got input'].
  destruct (0 <? Z.of_nat (List.length got)); reflexivity.
Qed.

Lemma loop_frame_stdout s remaining : forall i value st,
  read_uint32_loop remaining i value (set_stdout s st)
  = map_state (set_stdout s) (read_uint32_loop remaining i value st).
Proof.
  induction remaining as [|remaining IH]; intros i value st; [reflexivity|].
  cbn [read_uint32_loop]. unfold bind. rewrite body_frame_stdout.
  destruct (read_uint32_body i value st) as [value' st1|status st1];
    cbn [map_state]; [apply IH|reflexivity].
Qed.

(** Extra X14.  [write_state] does not disturb the stream: a draw made right
    after it gives the value, the reader state and the fatal exit it would
    have given without it; the only difference is the one line feed
    [write_state] has put on standard output. *)
Theorem write_state_keeps_stream st_ptr st :
  (write_state st_ptr ;;; read_uint32) st
  = map_state (set_stdout (stdout st ++ LF)%string) (read_uint32 st).
Proof.
  unfold write_state, bind, print_out.
  fold (set_stdout (stdout st ++ LF)%string st).
  apply loop_frame_stdout.
Qed.

(** ** [main] from the command line to the end of the battery *)








(** ** The number of [fread] calls *)

Lemma body_after_refill i value st st1 :
  buffer_len st <= buffer_pos st ->
  refill_buffer st = Return true st1 ->
  read_uint32_body i value st = read_uint32_body i value st1.
Proof.
  intros Hdrained Hrefill.
  assert (Hfilled : buffer_pos st1 < buffer_len st1).
  { unfold refill_buffer in Hrefill.
    destruct (fread BUFFER_SIZE (stdin st)) as [got input'].
    injection Hrefill as Hlt <-. cbn. now apply Z.ltb_lt. }
  unfold read_uint32_body, bind.
  replace (buffer_pos st >=? buffer_len st) with true
    by (symmetry; rewrite Z.geb_leb; now apply Z.leb_le).
  replace (buffer_pos st1 >=? buffer_len st1) with false
    by (symmetry; rewrite Z.geb_leb; now apply Z.leb_gt).
  rewrite Hrefill. reflexivity.
Qed.

Lemma read_after_refill st st1 :
  buffer_len st <= buffer_pos st ->
  refill_buffer st = Return true st1 ->
  read_uint32 st = read_uint32 st1.
Proof.
  intros Hdrained Hrefill. unfold read_uint32. cbn [read_uint32_loop].
  unfold bind. now rewrite (body_after_refill 0 0 st st1).
Qed.

Lemma fread_one_piece rest :
  rest <> [] ->
  fread BUFFER_SIZE (one_piece rest)
  = (firstn (Z.to_nat BUFFER_SIZE) rest,
     one_piece (skipn (Z.to_nat BUFFER_SIZE) rest)).
Proof.
  intros Hrest. destruct rest as [|b rest]; [now elim Hrest|].
  unfold one_piece at 1. unfold fread.
  destruct (skipn (Z.to_nat BUFFER_SIZE) (b :: rest)); reflexivity.
Qed.

Lemma block_state_step bytes j reads st :
  block_state bytes j reads st ->
  4 * j + 4 <= Z.of_nat (List.length bytes) ->
  exists v st' reads',
    read_uint32 st = Return v st' /\ block_state bytes (j + 1) reads' st'.
Proof.
  intros [Hpos Hlen Hreads Hstdin Hunread Hceil] Hroom.
  destruct (Z_le_gt_dec (4 * j + 4) (4096 * Z.of_nat reads)) as [Hbuf|Hedge].
  - (* the value lies in the current fill *)
    assert (Hfour : buffer_pos st + 4 <= buffer_len st) by lia.
    destruct (read_buffered st Hpos Hfour Hlen) as (v & Hread).
    rewrite Hread. eexists. eexists. exists reads. split; [reflexivity|].
    split; cbn [buffer_pos buffer_len stdin stdin_reads]; try assumption; lia.
  - (* the fill is used up: one [fread], then the value *)
    assert (Hedge' : 4096 * Z.of_nat reads = 4 * j) by lia.
    assert (Hdrained : buffer_len st <= buffer_pos st) by lia.
    set (rest := skipn (4096 * reads) bytes) in *.
    assert (Hrest : List.length rest = (List.length bytes - 4096 * reads)%nat)
      by (unfold rest; apply length_skipn).
    assert (Hsome : rest <> [])
      by (intros E; rewrite E in Hrest; cbn in Hrest; lia).
    pose (got := firstn (Z.to_nat BUFFER_SIZE) rest).
    assert (Hgot : Z.of_nat (List.length got)
                   = Z.min 4096 (Z.of_nat (List.length bytes) - 4 * j)).
    { unfold got, BUFFER_SIZE. rewrite length_firstn, Hrest. lia. }
    pose (st1 := mkState (store_prefix got (buffer st)) 0
                   (Z.of_nat (List.length got))
                   (one_piece (skipn (Z.to_nat BUFFER_SIZE) rest))
                   (S (stdin_reads st)) (stdout st) (stderr st)
                   (heap_exhausted st)).
    assert (Hrefill : refill_buffer st = Return true st1).
    { unfold refill_buffer. rewrite Hstdin, (fread_one_piece rest Hsome).
      fold got. unfold st1. f_equal. apply Z.ltb_lt. lia. }
    rewrite (read_after_refill st st1 Hdrained Hrefill).
    destruct (read_buffered st1) as (v & Hread);
      [cbn [st1 buffer_pos buffer_len]; unfold BUFFER_SIZE; lia ..|].
    rewrite Hread. eexists. eexists. exists (S reads).
    split; [reflexivity|].
    split; cbn [st1 buffer_pos buffer_len stdin stdin_reads];
      unfold BUFFER_SIZE; try lia.
    unfold rest. rewrite skipn_skipn. f_equal. f_equal.
    change (Z.to_nat 4096) with 4096%nat. lia.
Qed.

Lemma block_state_run bytes n : forall j reads st,
  block_state bytes j reads st ->
  4 * (j + Z.of_nat n) <= Z.of_nat (List.length bytes) ->
  exists vs st' reads',
    read_many n st = Return vs st'
    /\ block_state bytes (j + Z.of_nat n) reads' st'.
Proof.
  induction n as [|n IH]; intros j reads st Hblock Hroom.
  - exists [], st, reads. split; [reflexivity|].
    now replace (j + Z.of_nat 0) with j by lia.
  - destruct (block_state_step bytes j reads st Hblock ltac:(lia))
      as (v & st1 & reads1 & Hread & Hblock1).
    destruct (IH (j + 1) reads1 st1 Hblock1 ltac:(lia))
      as (vs & st' & reads' & Hmany & Hblock').
    exists (v :: vs), st', reads'. cbn [read_many]. unfold bind.
    rewrite Hread, Hmany. split; [reflexivity|].
    now replace (j + Z.of_nat (S n)) with (j + 1 + Z.of_nat n) by lia.
Qed.

(** Extra X16.  Reading is amortised over whole fills: when standard input
    delivers full arrays while bytes remain, [n] calls of [read_uint32] on
    an input that holds the [n] values issue exactly the [fread] calls
    needed to fetch their [4 n] bytes, 4096 at a time, that is
    [ceil (4 n / 4096)] of them; no value straddles two fills. *)
Theorem fread_count_full_blocks bytes n :
  (4 * n <= List.length bytes)%nat ->
  exists vs st',
    read_many n (initial_state (one_piece bytes)) = Return vs st'
    /\ stdin_reads st' = ((4 * n + 4095) / 4096)%nat.
Proof.
  intros Hroom.
  assert (Hinit : block_state bytes 0 0 (initial_state (one_piece bytes))).
  { split; cbn [initial_state buffer_pos buffer_len stdin stdin_reads];
      unfold BUFFER_SIZE; try lia; reflexivity. }
  destruct (block_state_run bytes n 0 0%nat _ Hinit ltac:(lia))
    as (vs & st' & reads' & Hmany & [_ _ Hreads _ _ Hceil]).
  exists vs, st'. split; [exact Hmany|]. rewrite Hreads.
  apply Nat2Z.inj. rewrite Nat2Z.inj_div, Nat2Z.inj_add, Nat2Z.inj_mul.
  change (Z.of_nat 4095) with 4095. change (Z.of_nat 4096) with 4096.
  change (Z.of_nat 4) with 4.
  Z.div_mod_to_equations. lia.
Qed.

Lemma fread_count_full_blocks_witness :
  exists vs st',
    read_many 1025 (initial_state (one_piece (ramp 5000))) = Return vs st'
    /\ stdin_reads st' = ((4 * 1025 + 4095) / 4096)%nat.
Proof.
  apply (fread_count_full_blocks (ramp 5000) 1025).
  vm_compute. repeat constructor.
Defined.
